(** * Kernel process abstraction (core/hle/kernel/process.h)

    A shallow embedding of the [Kernel::CodeSet] and [Kernel::Process]
    declarations, with the member initialisers and inline members of the
    header translated as they are written.  Members whose bodies live in
    process.cpp are modelled from the design document and are marked as
    such where they are introduced. *)

From Stdlib Require Import ZArith List Lia String Bool Sorted.
Import ListNotations.
Open Scope Z_scope.

(** ** Machine integers *)

(** [u32] and [u16] values are integers in range; arithmetic on them wraps. *)
Definition U32_MOD : Z := 4294967296.
Definition wrap32 (z : Z) : Z := z mod U32_MOD.
Definition wrap16 (z : Z) : Z := z mod 65536.
Definition is_u32 (z : Z) : Prop := 0 <= z < U32_MOD.

(** ** Results *)

(** Modelled from the spec: [ResultCode] and [ResultVal<T>] are declared in
    core/hle/result.h, which is not part of this unit; the failure kinds are
    the ones the design document enumerates. *)
Inductive ErrorKind : Type :=
| InvalidAddress
| InvalidSize
| OutOfMemory
| ResourceExhausted
| PermissionDenied
| CapabilityError
| InvalidArgument.

Inductive ResultVal (A : Type) : Type :=
| Ok (a : A)
| Err (e : ErrorKind).
Arguments Ok {A} a.
Arguments Err {A} e.

Definition ResultCode : Type := ResultVal unit.
Definition RESULT_SUCCESS : ResultCode := Ok tt.

(** ** Plain data of the header *)

Definition VAddr : Type := Z.

Record AddressMapping : Type := mkAddressMapping {
  address : VAddr;
  size : Z;
  writable : bool;
  unk_flag : bool
}.

Inductive MemoryRegion : Type :=
| APPLICATION
| SYSTEM
| BASE.

Definition MemoryRegion_value (r : MemoryRegion) : Z :=
  match r with
  | APPLICATION => 1
  | SYSTEM => 2
  | BASE => 3
  end.

(** [BitField<pos, len, T>]: [len] bits of the raw storage starting at
    bit [pos]. *)
Definition BitField (pos len raw : Z) : Z :=
  Z.land (Z.shiftr raw pos) (Z.ones len).

(** [union ProcessFlags]: the raw [u16] and its named views. *)
Definition ProcessFlags : Type := Z.

Definition allow_debug (f : ProcessFlags) : bool := Z.testbit f 0.
Definition force_debug (f : ProcessFlags) : bool := Z.testbit f 1.
Definition allow_nonalphanum (f : ProcessFlags) : bool := Z.testbit f 2.
Definition shared_page_writable (f : ProcessFlags) : bool := Z.testbit f 3.
Definition privileged_priority (f : ProcessFlags) : bool := Z.testbit f 4.
Definition allow_main_args (f : ProcessFlags) : bool := Z.testbit f 5.
Definition shared_device_mem (f : ProcessFlags) : bool := Z.testbit f 6.
Definition runnable_on_sleep (f : ProcessFlags) : bool := Z.testbit f 7.
Definition memory_region_field (f : ProcessFlags) : Z := BitField 8 4 f.
Definition loaded_high (f : ProcessFlags) : bool := Z.testbit f 12.

(** Modelled from the spec: [enum HandleType] is declared in
    core/hle/kernel/kernel.h, which is not part of this unit; only the two
    tags the header names are needed. *)
Inductive HandleType : Type :=
| HandleType_Process
| HandleType_CodeSet.

(** ** CodeSet *)

Record Segment : Type := mkSegment {
  seg_offset : Z;
  seg_addr : VAddr;
  seg_size : Z
}.

(** [Segment] members default to zero. *)
Definition Segment_default : Segment := mkSegment 0 0 0.

Record CodeSet : Type := mkCodeSet {
  name : string;
  program_id : Z;
  code : Segment;
  rodata : Segment;
  data : Segment;
  entrypoint : VAddr
}.

Definition CodeSet_GetTypeName (_ : CodeSet) : string := "CodeSet".
Definition CodeSet_GetName (cs : CodeSet) : string := name cs.
Definition CodeSet_HANDLE_TYPE : HandleType := HandleType_CodeSet.
Definition CodeSet_GetHandleType (_ : CodeSet) : HandleType := CodeSet_HANDLE_TYPE.

(** ** The address space driver *)

(** Modelled from the spec: [VMAPermission] and [VMManager] are declared in
    core/hle/kernel/vm_manager.h, which is not part of this unit.  The driver
    is kept as the address-ordered list of the ranges it currently maps; each
    range remembers the permissions it was committed with and which
    allocator committed it. *)
Record VMAPermission : Type := mkPerm {
  perm_read : bool;
  perm_write : bool;
  perm_execute : bool
}.

Inductive VMAKind : Type :=
| VMA_Code
| VMA_Heap
| VMA_Linear.

Record VMA : Type := mkVMA {
  vma_base : VAddr;
  vma_end : VAddr;
  vma_perms : VMAPermission;
  vma_kind : VMAKind
}.

Definition VMManager : Type := list VMA.

(** Modelled from the spec: [struct MemoryRegionInfo] is only forward
    declared in the header; the design document describes it as the pool a
    process draws linear-heap pages from, with a capacity and a usage. *)
Record MemoryRegionInfo : Type := mkMemoryRegionInfo {
  region_base : Z;
  region_size : Z;
  region_used : Z
}.

(** Modelled from the spec: what [Run] hands to the external main-thread
    creation. *)
Record MainThread : Type := mkMainThread {
  thread_entry : VAddr;
  thread_priority : Z;
  thread_stack_size : Z
}.

(** ** Process *)

(** The data members of [class Process], in declaration order.  The
    [resource_limit] handle and the [heap_memory] backing buffer are external
    storage whose contents no member modelled here inspects; they are left
    out.  [main_thread] records the launch [Run] triggers. *)
Record Process : Type := mkProcess {
  codeset : option CodeSet;
  svc_access_mask : Z;
  handle_table_size : Z;
  address_mappings : list AddressMapping;
  flags : ProcessFlags;
  kernel_version : Z;
  process_id : Z;
  vm_manager : VMManager;
  heap_start : VAddr;
  heap_end : VAddr;
  heap_used : Z;
  linear_heap_used : Z;
  misc_memory_used : Z;
  memory_region : option MemoryRegionInfo;
  used_tls_slots : Z;
  main_thread : option MainThread
}.

(** Capacity of [boost::container::static_vector<AddressMapping, 8>]. *)
Definition ADDRESS_MAPPINGS_CAPACITY : nat := 8.
(** Width of [std::bitset<0x80> svc_access_mask]. *)
Definition SVC_MASK_BITS : Z := 128.
(** Width of [std::bitset<300> used_tls_slots]. *)
Definition TLS_SLOTS : nat := 300.

(** [codeset->name]: dereferencing a null [SharedPtr] yields nothing. *)
Definition Process_GetTypeName (_ : Process) : string := "Process".
Definition Process_GetName (p : Process) : option string :=
  match codeset p with
  | Some cs => Some (name cs)
  | None => None
  end.
Definition Process_HANDLE_TYPE : HandleType := HandleType_Process.
Definition Process_GetHandleType (_ : Process) : HandleType := Process_HANDLE_TYPE.

(** ** Process identifiers *)

(** [static u32 next_process_id]: the one piece of state shared by all
    processes of a kernel. *)
Record Kernel : Type := mkKernel {
  next_process_id : Z
}.

Definition kernel_wf (k : Kernel) : Prop := is_u32 (next_process_id k).

(** The default member initialisers of [class Process], run for every object
    that is constructed: [handle_table_size = 0x200], [kernel_version = 0],
    [process_id = next_process_id++], zeroed heap bounds and counters, a null
    [memory_region], empty bitsets and an empty [static_vector].  The [flags]
    union has no initialiser; [raw_flags] stands for whatever its storage
    holds. *)
Definition Process_new (raw_flags : Z) (k : Kernel) : Process * Kernel :=
  ({| codeset := None;
      svc_access_mask := 0;
      handle_table_size := 512;
      address_mappings := [];
      flags := raw_flags;
      kernel_version := 0;
      process_id := next_process_id k;
      vm_manager := [];
      heap_start := 0;
      heap_end := 0;
      heap_used := 0;
      linear_heap_used := 0;
      misc_memory_used := 0;
      memory_region := None;
      used_tls_slots := 0;
      main_thread := None |},
   {| next_process_id := wrap32 (next_process_id k + 1) |}).

Definition set_codeset (cs : CodeSet) (p : Process) : Process :=
  {| codeset := Some cs;
     svc_access_mask := svc_access_mask p;
     handle_table_size := handle_table_size p;
     address_mappings := address_mappings p;
     flags := flags p;
     kernel_version := kernel_version p;
     process_id := process_id p;
     vm_manager := vm_manager p;
     heap_start := heap_start p;
     heap_end := heap_end p;
     heap_used := heap_used p;
     linear_heap_used := linear_heap_used p;
     misc_memory_used := misc_memory_used p;
     memory_region := memory_region p;
     used_tls_slots := used_tls_slots p;
     main_thread := main_thread p |}.

(** Modelled from the spec: the body of [Process::Create] is in process.cpp,
    which is not part of this unit.  It constructs a process (running the
    member initialisers above), clears the flags and binds the code set; the
    address space starts empty. *)
Definition Create (code_set : CodeSet) (k : Kernel) : Process * Kernel :=
  let '(p, k') := Process_new 0 k in
  (set_codeset code_set p, k').

(** A sequence of [Create] calls within one kernel lifetime. *)
Fixpoint create_all (css : list CodeSet) (k : Kernel) : list Process * Kernel :=
  match css with
  | [] => ([], k)
  | cs :: rest =>
      let '(p, k1) := Create cs k in
      let '(ps, k2) := create_all rest k1 in
      (p :: ps, k2)
  end.

Definition created_ids (css : list CodeSet) (k : Kernel) : list Z :=
  map process_id (fst (create_all css k)).

(** Assignment to one data member of a process. *)
Definition set_svc_access_mask (v : Z) (p : Process) : Process :=
  {| codeset := codeset p;
     svc_access_mask := v;
     handle_table_size := handle_table_size p;
     address_mappings := address_mappings p;
     flags := flags p;
     kernel_version := kernel_version p;
     process_id := process_id p;
     vm_manager := vm_manager p;
     heap_start := heap_start p;
     heap_end := heap_end p;
     heap_used := heap_used p;
     linear_heap_used := linear_heap_used p;
     misc_memory_used := misc_memory_used p;
     memory_region := memory_region p;
     used_tls_slots := used_tls_slots p;
     main_thread := main_thread p |}.

Definition set_handle_table_size (v : Z) (p : Process) : Process :=
  {| codeset := codeset p;
     svc_access_mask := svc_access_mask p;
     handle_table_size := v;
     address_mappings := address_mappings p;
     flags := flags p;
     kernel_version := kernel_version p;
     process_id := process_id p;
     vm_manager := vm_manager p;
     heap_start := heap_start p;
     heap_end := heap_end p;
     heap_used := heap_used p;
     linear_heap_used := linear_heap_used p;
     misc_memory_used := misc_memory_used p;
     memory_region := memory_region p;
     used_tls_slots := used_tls_slots p;
     main_thread := main_thread p |}.

Definition set_address_mappings (v : list AddressMapping) (p : Process) : Process :=
  {| codeset := codeset p;
     svc_access_mask := svc_access_mask p;
     handle_table_size := handle_table_size p;
     address_mappings := v;
     flags := flags p;
     kernel_version := kernel_version p;
     process_id := process_id p;
     vm_manager := vm_manager p;
     heap_start := heap_start p;
     heap_end := heap_end p;
     heap_used := heap_used p;
     linear_heap_used := linear_heap_used p;
     misc_memory_used := misc_memory_used p;
     memory_region := memory_region p;
     used_tls_slots := used_tls_slots p;
     main_thread := main_thread p |}.

Definition set_flags (v : ProcessFlags) (p : Process) : Process :=
  {| codeset := codeset p;
     svc_access_mask := svc_access_mask p;
     handle_table_size := handle_table_size p;
     address_mappings := address_mappings p;
     flags := v;
     kernel_version := kernel_version p;
     process_id := process_id p;
     vm_manager := vm_manager p;
     heap_start := heap_start p;
     heap_end := heap_end p;
     heap_used := heap_used p;
     linear_heap_used := linear_heap_used p;
     misc_memory_used := misc_memory_used p;
     memory_region := memory_region p;
     used_tls_slots := used_tls_slots p;
     main_thread := main_thread p |}.

Definition set_kernel_version (v : Z) (p : Process) : Process :=
  {| codeset := codeset p;
     svc_access_mask := svc_access_mask p;
     handle_table_size := handle_table_size p;
     address_mappings := address_mappings p;
     flags := flags p;
     kernel_version := v;
     process_id := process_id p;
     vm_manager := vm_manager p;
     heap_start := heap_start p;
     heap_end := heap_end p;
     heap_used := heap_used p;
     linear_heap_used := linear_heap_used p;
     misc_memory_used := misc_memory_used p;
     memory_region := memory_region p;
     used_tls_slots := used_tls_slots p;
     main_thread := main_thread p |}.

Definition set_vm_manager (v : VMManager) (p : Process) : Process :=
  {| codeset := codeset p;
     svc_access_mask := svc_access_mask p;
     handle_table_size := handle_table_size p;
     address_mappings := address_mappings p;
     flags := flags p;
     kernel_version := kernel_version p;
     process_id := process_id p;
     vm_manager := v;
     heap_start := heap_start p;
     heap_end := heap_end p;
     heap_used := heap_used p;
     linear_heap_used := linear_heap_used p;
     misc_memory_used := misc_memory_used p;
     memory_region := memory_region p;
     used_tls_slots := used_tls_slots p;
     main_thread := main_thread p |}.

Definition set_heap_used (v : Z) (p : Process) : Process :=
  {| codeset := codeset p;
     svc_access_mask := svc_access_mask p;
     handle_table_size := handle_table_size p;
     address_mappings := address_mappings p;
     flags := flags p;
     kernel_version := kernel_version p;
     process_id := process_id p;
     vm_manager := vm_manager p;
     heap_start := heap_start p;
     heap_end := heap_end p;
     heap_used := v;
     linear_heap_used := linear_heap_used p;
     misc_memory_used := misc_memory_used p;
     memory_region := memory_region p;
     used_tls_slots := used_tls_slots p;
     main_thread := main_thread p |}.

Definition set_linear_heap_used (v : Z) (p : Process) : Process :=
  {| codeset := codeset p;
     svc_access_mask := svc_access_mask p;
     handle_table_size := handle_table_size p;
     address_mappings := address_mappings p;
     flags := flags p;
     kernel_version := kernel_version p;
     process_id := process_id p;
     vm_manager := vm_manager p;
     heap_start := heap_start p;
     heap_end := heap_end p;
     heap_used := heap_used p;
     linear_heap_used := v;
     misc_memory_used := misc_memory_used p;
     memory_region := memory_region p;
     used_tls_slots := used_tls_slots p;
     main_thread := main_thread p |}.

Definition set_memory_region (v : option MemoryRegionInfo) (p : Process) : Process :=
  {| codeset := codeset p;
     svc_access_mask := svc_access_mask p;
     handle_table_size := handle_table_size p;
     address_mappings := address_mappings p;
     flags := flags p;
     kernel_version := kernel_version p;
     process_id := process_id p;
     vm_manager := vm_manager p;
     heap_start := heap_start p;
     heap_end := heap_end p;
     heap_used := heap_used p;
     linear_heap_used := linear_heap_used p;
     misc_memory_used := misc_memory_used p;
     memory_region := v;
     used_tls_slots := used_tls_slots p;
     main_thread := main_thread p |}.

Definition set_used_tls_slots (v : Z) (p : Process) : Process :=
  {| codeset := codeset p;
     svc_access_mask := svc_access_mask p;
     handle_table_size := handle_table_size p;
     address_mappings := address_mappings p;
     flags := flags p;
     kernel_version := kernel_version p;
     process_id := process_id p;
     vm_manager := vm_manager p;
     heap_start := heap_start p;
     heap_end := heap_end p;
     heap_used := heap_used p;
     linear_heap_used := linear_heap_used p;
     misc_memory_used := misc_memory_used p;
     memory_region := memory_region p;
     used_tls_slots := v;
     main_thread := main_thread p |}.

Definition set_main_thread (v : option MainThread) (p : Process) : Process :=
  {| codeset := codeset p;
     svc_access_mask := svc_access_mask p;
     handle_table_size := handle_table_size p;
     address_mappings := address_mappings p;
     flags := flags p;
     kernel_version := kernel_version p;
     process_id := process_id p;
     vm_manager := vm_manager p;
     heap_start := heap_start p;
     heap_end := heap_end p;
     heap_used := heap_used p;
     linear_heap_used := linear_heap_used p;
     misc_memory_used := misc_memory_used p;
     memory_region := memory_region p;
     used_tls_slots := used_tls_slots p;
     main_thread := v |}.

(** ** Mapped ranges *)

(** Modelled from the spec: the page size is a constant of core/memory.h,
    which is not part of this unit; the design document's scenarios use
    0x1000-byte pages. *)
Definition PAGE_SIZE : Z := 4096.
Definition page_aligned (z : Z) : bool := z mod PAGE_SIZE =? 0.

(** Modelled from the spec: the driver keeps its ranges in address order,
    none empty, none overlapping: every range starts at or above [floor] and
    the next one starts at or above its end. *)
Fixpoint vm_ordered_from (floor : Z) (vm : VMManager) : Prop :=
  match vm with
  | [] => True
  | v :: rest =>
      floor <= vma_base v /\ vma_base v < vma_end v /\
      vm_ordered_from (vma_end v) rest
  end.

Definition vm_wf (vm : VMManager) : Prop := exists floor, vm_ordered_from floor vm.

Definition vma_clear_of (lo hi : Z) (v : VMA) : bool :=
  (vma_end v <=? lo) || (hi <=? vma_base v).

(** Modelled from the spec: a range is free when no mapped range meets
    [lo, hi). *)
Definition range_free (lo hi : Z) (vm : VMManager) : bool :=
  forallb (vma_clear_of lo hi) vm.

Definition VMAKind_eqb (a b : VMAKind) : bool :=
  match a, b with
  | VMA_Code, VMA_Code => true
  | VMA_Heap, VMA_Heap => true
  | VMA_Linear, VMA_Linear => true
  | _, _ => false
  end.

(** Modelled from the spec: a range is fully allocated when every byte of
    [lo, hi) is mapped by ranges of the given kind. *)
Fixpoint range_mapped (kind : VMAKind) (lo hi : Z) (vm : VMManager) {struct vm} : bool :=
  if hi <=? lo then true
  else
    match vm with
    | [] => false
    | v :: rest =>
        if vma_end v <=? lo then range_mapped kind lo hi rest
        else if (vma_base v <=? lo) && VMAKind_eqb (vma_kind v) kind
             then range_mapped kind (vma_end v) hi rest
             else false
    end.

(** Modelled from the spec: the driver's [map(range, permissions, backing)]
    enters a range at its place in address order. *)
Fixpoint vm_map (n : VMA) (vm : VMManager) : VMManager :=
  match vm with
  | [] => [n]
  | v :: rest =>
      if vma_base n <? vma_base v then n :: v :: rest
      else v :: vm_map n rest
  end.

(** What is left of one mapped range once [lo, hi) is taken out of it. *)
Definition vma_cut (lo hi : Z) (v : VMA) : list VMA :=
  (if vma_base v <? Z.min (vma_end v) lo
   then [mkVMA (vma_base v) (Z.min (vma_end v) lo) (vma_perms v) (vma_kind v)]
   else [])
  ++
  (if Z.max (vma_base v) hi <? vma_end v
   then [mkVMA (Z.max (vma_base v) hi) (vma_end v) (vma_perms v) (vma_kind v)]
   else []).

(** Modelled from the spec: the driver's [unmap(range)]. *)
Definition vm_unmap (lo hi : Z) (vm : VMManager) : VMManager :=
  flat_map (vma_cut lo hi) vm.

(** ** RegionAllocator *)

(** Modelled from the spec: the lowest-address-first search.  It yields the
    lowest address at or above [cur] from which [sz] bytes are free and end at
    or below [limit]; the scan walks the ranges in address order. *)
Fixpoint first_fit (cur limit sz : Z) (vm : VMManager) : option Z :=
  match vm with
  | [] => if cur + sz <=? limit then Some cur else None
  | v :: rest =>
      if cur + sz <=? vma_base v
      then (if cur + sz <=? limit then Some cur else None)
      else first_fit (Z.max cur (vma_end v)) limit sz rest
  end.

(** Modelled from the spec: the allocation contract shared by the heap and the
    linear heap (their bodies are in process.cpp, which is not part of this
    unit).  Sizes are unsigned, so a size that is not positive is the zero
    size.  A zero [target] lets the allocator choose the lowest fitting
    address of the region [lo, hi); any other [target] must lie in the region
    and be free. *)
Definition region_allocate (kind : VMAKind) (lo hi target sz : Z)
    (perms : VMAPermission) (vm : VMManager) : ResultVal (VAddr * VMManager) :=
  if (sz <=? 0) || negb (page_aligned sz) || negb (page_aligned target)
  then Err InvalidSize
  else if target =? 0 then
    match first_fit lo hi sz vm with
    | Some a => Ok (a, vm_map (mkVMA a (a + sz) perms kind) vm)
    | None => Err OutOfMemory
    end
  else if (lo <=? target) && (target + sz <=? hi)
          && range_free target (target + sz) vm
  then Ok (target, vm_map (mkVMA target (target + sz) perms kind) vm)
  else Err InvalidAddress.

(** Modelled from the spec: the release contract shared by the heap and the
    linear heap. *)
Definition region_free (kind : VMAKind) (target sz : Z) (vm : VMManager)
    : ResultVal VMManager :=
  if range_mapped kind target (target + sz) vm
  then Ok (vm_unmap target (target + sz) vm)
  else Err InvalidAddress.

(** Modelled from the spec: [Process::HeapAllocate], declared in the header
    as [ResultVal<VAddr> HeapAllocate(VAddr, u32, VMAPermission)]. *)
Definition HeapAllocate (target sz : Z) (perms : VMAPermission) (p : Process)
    : ResultVal VAddr * Process :=
  match region_allocate VMA_Heap (heap_start p) (heap_end p) target sz perms
          (vm_manager p) with
  | Ok (a, vm') =>
      (Ok a, set_heap_used (wrap32 (heap_used p + sz)) (set_vm_manager vm' p))
  | Err e => (Err e, p)
  end.

(** Modelled from the spec: [Process::HeapFree], declared in the header as
    [ResultCode HeapFree(VAddr, u32)]. *)
Definition HeapFree (target sz : Z) (p : Process) : ResultCode * Process :=
  match region_free VMA_Heap target sz (vm_manager p) with
  | Ok vm' =>
      (RESULT_SUCCESS,
       set_heap_used (wrap32 (heap_used p - sz)) (set_vm_manager vm' p))
  | Err e => (Err e, p)
  end.

(** Modelled from the spec: [GetLinearHeapBase] and [GetLinearHeapLimit] are
    declared in the header without bodies; the linear heap is the extent of
    the pool [memory_region] names. *)
Definition GetLinearHeapBase (p : Process) : VAddr :=
  match memory_region p with
  | Some r => region_base r
  | None => 0
  end.

Definition GetLinearHeapLimit (p : Process) : VAddr :=
  match memory_region p with
  | Some r => region_base r + region_size r
  | None => 0
  end.

(** Modelled from the spec: [Process::LinearAllocate]; the pool must also
    have room for the request. *)
Definition LinearAllocate (target sz : Z) (perms : VMAPermission) (p : Process)
    : ResultVal VAddr * Process :=
  match memory_region p with
  | None => (Err OutOfMemory, p)
  | Some r =>
      if region_size r <? region_used r + sz then (Err OutOfMemory, p)
      else
        match region_allocate VMA_Linear (GetLinearHeapBase p)
                (GetLinearHeapLimit p) target sz perms (vm_manager p) with
        | Ok (a, vm') =>
            (Ok a,
             set_memory_region
               (Some (mkMemoryRegionInfo (region_base r) (region_size r)
                        (region_used r + sz)))
               (set_linear_heap_used (wrap32 (linear_heap_used p + sz))
                  (set_vm_manager vm' p)))
        | Err e => (Err e, p)
        end
  end.

(** Modelled from the spec: [Process::LinearFree]. *)
Definition LinearFree (target sz : Z) (p : Process) : ResultCode * Process :=
  match region_free VMA_Linear target sz (vm_manager p) with
  | Ok vm' =>
      (RESULT_SUCCESS,
       set_memory_region
         (match memory_region p with
          | Some r =>
              Some (mkMemoryRegionInfo (region_base r) (region_size r)
                      (region_used r - sz))
          | None => None
          end)
         (set_linear_heap_used (wrap32 (linear_heap_used p - sz))
            (set_vm_manager vm' p)))
  | Err e => (Err e, p)
  end.

(** ** SlotBitmap *)

(** The lowest clear bit among the [n] bits starting at bit [i]. *)
Fixpoint lowest_unset_from (bits i : Z) (n : nat) : option Z :=
  match n with
  | O => None
  | S n' =>
      if Z.testbit bits i then lowest_unset_from bits (i + 1) n'
      else Some i
  end.

(** Modelled from the spec: the slot allocator over [used_tls_slots]; the
    header declares the bitset only. *)
Definition SlotBitmap_Allocate (bits : Z) : ResultVal Z * Z :=
  match lowest_unset_from bits 0 TLS_SLOTS with
  | Some i => (Ok i, Z.setbit bits i)
  | None => (Err ResourceExhausted, bits)
  end.

(** Modelled from the spec: [Free(index)] clears a slot; an index out of
    range or a slot already clear is an InvalidArgument. *)
Definition SlotBitmap_Free (index : Z) (bits : Z) : ResultCode * Z :=
  if (0 <=? index) && (index <? Z.of_nat TLS_SLOTS) && Z.testbit bits index
  then (RESULT_SUCCESS, Z.clearbit bits index)
  else (Err InvalidArgument, bits).

(** [n] allocations in a row: the indices handed out (until one fails) and
    the bitmap left behind. *)
Fixpoint allocate_many (n : nat) (bits : Z) : list (ResultVal Z) * Z :=
  match n with
  | O => ([], bits)
  | S n' =>
      let '(r, bits1) := SlotBitmap_Allocate bits in
      let '(rs, bits2) := allocate_many n' bits1 in
      (r :: rs, bits2)
  end.

Definition AllocateTLSSlot (p : Process) : ResultVal Z * Process :=
  let '(r, bits) := SlotBitmap_Allocate (used_tls_slots p) in
  (r, set_used_tls_slots bits p).

Definition FreeTLSSlot (index : Z) (p : Process) : ResultCode * Process :=
  let '(r, bits) := SlotBitmap_Free index (used_tls_slots p) in
  (r, set_used_tls_slots bits p).

(** ** KernelCapabilityParser *)

(** Modelled from the spec: the decoded form of one capability descriptor,
    a sum over the descriptor kinds the design document lists. *)
Inductive Descriptor : Type :=
| SvcAccessMask (window bits : Z)
| KernelReleaseVersion (version : Z)
| HandleTableSize (n : Z)
| KernelFlags (raw : Z)
| MappedMemoryRange (addr : VAddr) (flag : bool)
| MappedMemoryPage (addr : VAddr) (flag : bool).

(** Modelled from the spec: the tag of a descriptor is the run of 1-bits
    read from bit 31 downwards, ended by a 0-bit.  The payload is what lies
    below that 0-bit. *)
Fixpoint leading_ones (d bit : Z) (n : nat) : nat :=
  match n with
  | O => O
  | S n' =>
      if Z.testbit d bit then S (leading_ones d (bit - 1) n') else O
  end.

Definition tag_length (d : Z) : nat := leading_ones d 31 32.

Definition payload (d : Z) : Z :=
  Z.land d (Z.ones (Z.max 0 (31 - Z.of_nat (tag_length d)))).

(** Modelled from the spec: the tag-length-to-kind mapping, the payload
    layouts and the platform maximum of the handle table are external
    reference data; the parser receives them as a table.  A tag the table
    does not know decodes to nothing. *)
Record AbiTable : Type := mkAbiTable {
  abi_decode : nat -> Z -> option Descriptor;
  abi_max_handle_table_size : Z
}.

Definition decode (abi : AbiTable) (d : Z) : option Descriptor :=
  abi_decode abi (tag_length d) (payload d).

(** Modelled from the spec: an SVC fragment sets, in the 128-bit mask, the
    permissions of the 24-permission window [window] that the payload [bits]
    grants. *)
Definition svc_apply (window bits mask : Z) : Z :=
  Z.land (Z.lor mask (Z.shiftl (Z.land bits (Z.ones 24)) (24 * window)))
         (Z.ones SVC_MASK_BITS).

(** Modelled from the spec: the entry a pair of range descriptors stands
    for; a pair whose end lies before its start, or that is not page-aligned,
    is malformed. *)
Definition range_mapping (s : VAddr) (f1 : bool) (e : VAddr) (f2 : bool)
    : ResultVal AddressMapping :=
  if (e <? s) || negb (page_aligned s) || negb (page_aligned e)
  then Err CapabilityError
  else Ok (mkAddressMapping s (e - s) f1 f2).

Definition page_mapping (a : VAddr) (f : bool) : ResultVal AddressMapping :=
  if negb (page_aligned a) then Err CapabilityError
  else Ok (mkAddressMapping a PAGE_SIZE f false).

(** Modelled from the spec: [address_mappings.push_back], refused with
    CapabilityError once the vector holds its eight entries. *)
Definition add_mapping (m : AddressMapping) (p : Process) : ResultVal Process :=
  if (ADDRESS_MAPPINGS_CAPACITY <=? List.length (address_mappings p))%nat
  then Err CapabilityError
  else Ok (set_address_mappings (address_mappings p ++ [m]) p).

Section Parser.

Variable abi : AbiTable.

(** Modelled from the spec: the capability parser [ParseKernelCaps]
    delegates to (its body is in process.cpp, which is not part of this
    unit).  Descriptors are applied in order; the first malformed pair or
    refused mapping stops the parse and leaves what was applied so far in
    place. *)
Fixpoint parse_descriptors (ds : list Z) (p : Process) {struct ds}
    : ResultCode * Process :=
  match ds with
  | [] => (RESULT_SUCCESS, p)
  | d :: rest =>
      match decode abi d with
      | None => parse_descriptors rest p
      | Some (SvcAccessMask w bits) =>
          parse_descriptors rest
            (set_svc_access_mask (svc_apply w bits (svc_access_mask p)) p)
      | Some (KernelReleaseVersion v) =>
          parse_descriptors rest (set_kernel_version (wrap16 v) p)
      | Some (HandleTableSize n) =>
          parse_descriptors rest
            (set_handle_table_size
               (Z.min n (abi_max_handle_table_size abi)) p)
      | Some (KernelFlags raw) =>
          parse_descriptors rest (set_flags (wrap16 raw) p)
      | Some (MappedMemoryRange s f1) =>
          match rest with
          | [] => (Err CapabilityError, p)
          | d2 :: rest' =>
              match decode abi d2 with
              | Some (MappedMemoryRange e f2) =>
                  match range_mapping s f1 e f2 with
                  | Err err => (Err err, p)
                  | Ok m =>
                      match add_mapping m p with
                      | Err err => (Err err, p)
                      | Ok p' => parse_descriptors rest' p'
                      end
                  end
              | _ => (Err CapabilityError, p)
              end
          end
      | Some (MappedMemoryPage a f) =>
          match page_mapping a f with
          | Err err => (Err err, p)
          | Ok m =>
              match add_mapping m p with
              | Err err => (Err err, p)
              | Ok p' => parse_descriptors rest p'
              end
          end
      end
  end.

(** [void ParseKernelCaps(const u32* kernel_caps, size_t len)]: the member
    hands nothing back; the process keeps whatever the parser applied. *)
Definition ParseKernelCaps (kernel_caps : list Z) (p : Process)
    : unit * Process :=
  (tt, snd (parse_descriptors kernel_caps p)).

(** The SVC-access-mask descriptors of a sequence, decoded. *)
Fixpoint svc_descriptors (ds : list Z) : list (Z * Z) :=
  match ds with
  | [] => []
  | d :: rest =>
      match decode abi d with
      | Some (SvcAccessMask w bits) => (w, bits) :: svc_descriptors rest
      | _ => svc_descriptors rest
      end
  end.

(** A well-formed pair of mapped-memory-range descriptors. *)
Definition valid_range_pair (pr : Z * Z) : bool :=
  match decode abi (fst pr), decode abi (snd pr) with
  | Some (MappedMemoryRange s _), Some (MappedMemoryRange e _) =>
      (s <=? e) && page_aligned s && page_aligned e
  | _, _ => false
  end.

End Parser.

(** ** Run *)

(** [privileged_priority]: can use priority levels higher than 24. *)
Definition PRIORITY_CEILING : Z := 24.

Definition PERM_RX : VMAPermission := mkPerm true false true.
Definition PERM_R : VMAPermission := mkPerm true false false.
Definition PERM_RW : VMAPermission := mkPerm true true false.

(** Modelled from the spec: commit one code-set segment at its recorded
    address; an empty segment maps nothing, an occupied range is an
    InvalidAddress. *)
Definition map_segment (perms : VMAPermission) (s : Segment) (vm : VMManager)
    : ResultVal VMManager :=
  if seg_size s <=? 0 then Ok vm
  else if range_free (seg_addr s) (seg_addr s + seg_size s) vm
  then Ok (vm_map (mkVMA (seg_addr s) (seg_addr s + seg_size s) perms VMA_Code) vm)
  else Err InvalidAddress.

(** Modelled from the spec: what [Run] does (its body is in process.cpp, which
    is not part of this unit).  The design document refuses every launch
    above the ceiling by a process without [privileged_priority], whatever
    the state of the address space, so the priority is decided before a
    segment is committed; then the segments are committed one after the
    other, and the main thread is requested with the code set's entry
    point. *)
Definition Run_launch (main_thread_priority stack_size : Z) (p : Process)
    : ResultCode * Process :=
  if (PRIORITY_CEILING <? main_thread_priority)
     && negb (privileged_priority (flags p))
  then (Err PermissionDenied, p)
  else
    match codeset p with
    | None => (Err InvalidArgument, p)
    | Some cs =>
        match map_segment PERM_RX (code cs) (vm_manager p) with
        | Err e => (Err e, p)
        | Ok vm1 =>
            match map_segment PERM_R (rodata cs) vm1 with
            | Err e => (Err e, set_vm_manager vm1 p)
            | Ok vm2 =>
                match map_segment PERM_RW (data cs) vm2 with
                | Err e => (Err e, set_vm_manager vm2 p)
                | Ok vm3 =>
                    (RESULT_SUCCESS,
                     set_main_thread
                       (Some (mkMainThread (entrypoint cs)
                                main_thread_priority stack_size))
                       (set_vm_manager vm3 p))
                end
            end
        end
    end.

(** [void Run(s32 main_thread_priority, u32 stack_size)]: the member hands
    nothing back. *)
Definition Run (main_thread_priority stack_size : Z) (p : Process)
    : unit * Process :=
  (tt, snd (Run_launch main_thread_priority stack_size p)).

(** ** Process states *)

(** One call of a member on a process; arguments are values of their
    declared unsigned types. *)
Inductive step (abi : AbiTable) : Process -> Process -> Prop :=
| step_ParseKernelCaps (ds : list Z) (p : Process) :
    step abi p (snd (ParseKernelCaps abi ds p))
| step_Run (prio stack : Z) (p : Process) :
    step abi p (snd (Run prio stack p))
| step_HeapAllocate (target sz : Z) (perms : VMAPermission) (p : Process) :
    is_u32 target -> is_u32 sz ->
    step abi p (snd (HeapAllocate target sz perms p))
| step_HeapFree (target sz : Z) (p : Process) :
    is_u32 target -> is_u32 sz ->
    step abi p (snd (HeapFree target sz p))
| step_LinearAllocate (target sz : Z) (perms : VMAPermission) (p : Process) :
    is_u32 target -> is_u32 sz ->
    step abi p (snd (LinearAllocate target sz perms p))
| step_LinearFree (target sz : Z) (p : Process) :
    is_u32 target -> is_u32 sz ->
    step abi p (snd (LinearFree target sz p))
| step_AllocateTLSSlot (p : Process) :
    step abi p (snd (AllocateTLSSlot p))
| step_FreeTLSSlot (index : Z) (p : Process) :
    step abi p (snd (FreeTLSSlot index p)).

(** Modelled from the spec: the heap region and the pool of a process are
    given to it from outside.  The header initialises [heap_start],
    [heap_end] and [memory_region] to zero and declares no member that takes
    them as an argument; the design document's scenarios start from a fresh
    process whose heap region is [heap_start, heap_end). *)
Definition install_memory (lo hi : VAddr) (region : option MemoryRegionInfo)
    (p : Process) : Process :=
  {| codeset := codeset p;
     svc_access_mask := svc_access_mask p;
     handle_table_size := handle_table_size p;
     address_mappings := address_mappings p;
     flags := flags p;
     kernel_version := kernel_version p;
     process_id := process_id p;
     vm_manager := vm_manager p;
     heap_start := lo;
     heap_end := hi;
     heap_used := heap_used p;
     linear_heap_used := linear_heap_used p;
     misc_memory_used := misc_memory_used p;
     memory_region := region;
     used_tls_slots := used_tls_slots p;
     main_thread := main_thread p |}.

(** The states a process goes through after [Create]: as [Create] leaves it
    or with a heap region and a pool installed on the fresh process, and
    from there through any calls of its members. *)
Inductive reachable (abi : AbiTable) : Process -> Prop :=
| reachable_Create (cs : CodeSet) (k : Kernel) :
    reachable abi (fst (Create cs k))
| reachable_install (cs : CodeSet) (k : Kernel) (lo hi : VAddr)
    (region : option MemoryRegionInfo) :
    is_u32 lo -> is_u32 hi -> lo <= hi ->
    reachable abi (install_memory lo hi region (fst (Create cs k)))
| reachable_step (p p' : Process) :
    reachable abi p -> step abi p p' -> reachable abi p'.

(** The states a process goes through from a given state on. *)
Inductive steps (abi : AbiTable) (p : Process) : Process -> Prop :=
| steps_refl : steps abi p p
| steps_next (p1 p2 : Process) :
    steps abi p p1 -> step abi p1 p2 -> steps abi p p2.

(** What the memory members rely on and keep. *)
Definition heap_wf (p : Process) : Prop :=
  vm_wf (vm_manager p) /\
  0 <= heap_start p /\ heap_start p <= heap_end p /\
  is_u32 (heap_used p).

(** ** A table to run the parser on *)

(** A table in the shape the parser expects, for running it on concrete
    descriptor words: four 1-bits tag an SVC mask fragment (window in payload
    bits 24-26, permissions in bits 0-23), six a kernel version, seven the
    kernel flags, eight the handle table size, nine one half of a mapped
    range (page number in bits 0-19, flag in bit 20), eleven a single mapped
    page. *)
Definition sample_decode (tag : nat) (pl : Z) : option Descriptor :=
  match tag with
  | 4%nat => Some (SvcAccessMask (Z.land (Z.shiftr pl 24) 7) (Z.land pl 16777215))
  | 6%nat => Some (KernelReleaseVersion (Z.land pl 65535))
  | 7%nat => Some (KernelFlags (Z.land pl 65535))
  | 8%nat => Some (HandleTableSize (Z.land pl 1023))
  | 9%nat => Some (MappedMemoryRange (Z.shiftl (Z.land pl 1048575) 12) (Z.testbit pl 20))
  | 11%nat => Some (MappedMemoryPage (Z.shiftl (Z.land pl 1048575) 12) (Z.testbit pl 20))
  | _ => None
  end.

Definition sample_abi : AbiTable := mkAbiTable sample_decode 1023.

(** Sample inputs. *)
Definition sample_codeset : CodeSet :=
  mkCodeSet "app" 1125899906842624
    (mkSegment 0 1048576 4096) Segment_default Segment_default 1048576.

Definition kernel_boot : Kernel := mkKernel 0.

Definition sample_process : Process := fst (Create sample_codeset kernel_boot).

(** The scenario process: a fresh process whose heap region is
    [0x08000000, 0x10000000). *)
Definition scenario_process : Process :=
  {| codeset := Some sample_codeset;
     svc_access_mask := 0;
     handle_table_size := 512;
     address_mappings := [];
     flags := 0;
     kernel_version := 0;
     process_id := 0;
     vm_manager := [];
     heap_start := 134217728;
     heap_end := 268435456;
     heap_used := 0;
     linear_heap_used := 0;
     misc_memory_used := 0;
     memory_region := None;
     used_tls_slots := 0;
     main_thread := None |}.

(** The mask left by a run of SVC-access-mask descriptors, applied in
    order. *)
Definition apply_svc_list (l : list (Z * Z)) (mask : Z) : Z :=
  fold_left (fun m wb => svc_apply (fst wb) (snd wb) m) l mask.

(** Descriptor words for the sample table: kernel flags with
    [privileged_priority] set, an SVC fragment for window 1 granting
    permissions 0 and 2 of the window, and a handle table size of 256. *)
Definition sample_caps : list Z := [4261412880; 4043309061; 4278190336].

(** Nine well-formed range pairs: pair [i] maps page [i] up to page
    [i + 1]. *)
Definition sample_pairs : list (Z * Z) :=
  map (fun i => (4286578688 + Z.of_nat i, 4286578688 + Z.of_nat i + 1))
      (seq 0 9).

(** An SVC fragment for window 0 that grants permission 0, followed by a
    malformed range pair (it ends before it starts). *)
Definition caps_svc_then_bad_pair : list Z :=
  [4026531841; 4286578690; 4286578689].

(** The sample process after its capabilities were parsed: it holds
    [privileged_priority]. *)
Definition privileged_process : Process :=
  snd (ParseKernelCaps sample_abi sample_caps sample_process).

(** A descriptor sequence cut into the units the parser consumes: a pair of
    range descriptors, or a single descriptor. *)
Inductive CapItem : Type :=
| RangePair (a b : Z)
| Single (d : Z).

Fixpoint flatten_items (items : list CapItem) : list Z :=
  match items with
  | [] => []
  | RangePair a b :: rest => a :: b :: flatten_items rest
  | Single d :: rest => d :: flatten_items rest
  end.

Fixpoint count_pairs (items : list CapItem) : nat :=
  match items with
  | [] => O
  | RangePair _ _ :: rest => S (count_pairs rest)
  | Single _ :: rest => count_pairs rest
  end.

(** A pair is well-formed; a single descriptor is of a kind that maps no
    memory (or of an unknown kind). *)
Definition item_ok (abi : AbiTable) (it : CapItem) : bool :=
  match it with
  | RangePair a b => valid_range_pair abi (a, b)
  | Single d =>
      match decode abi d with
      | Some (MappedMemoryRange _ _) => false
      | Some (MappedMemoryPage _ _) => false
      | _ => true
      end
  end.

(** What a single descriptor of such a kind does to the process. *)
Definition apply_single (abi : AbiTable) (d : Z) (p : Process) : Process :=
  match decode abi d with
  | Some (SvcAccessMask w bits) =>
      set_svc_access_mask (svc_apply w bits (svc_access_mask p)) p
  | Some (KernelReleaseVersion v) => set_kernel_version (wrap16 v) p
  | Some (HandleTableSize n) =>
      set_handle_table_size (Z.min n (abi_max_handle_table_size abi)) p
  | Some (KernelFlags raw) => set_flags (wrap16 raw) p
  | _ => p
  end.

(** Nine well-formed pairs among other descriptors: an SVC fragment, four
    pairs, the kernel flags, five pairs, a handle table size. *)
Definition sample_items : list CapItem :=
  Single 4043309061
  :: map (fun pr => RangePair (fst pr) (snd pr)) (firstn 4 sample_pairs)
  ++ Single 4261412880
  :: map (fun pr => RangePair (fst pr) (snd pr)) (skipn 4 sample_pairs)
  ++ [Single 4278190336].

(** The bit a window fragment leaves at position [i] of an empty mask. *)
Definition window_bit (w bits i : Z) : bool :=
  ((0 <=? i) && (i <? 128)) && ((24 * w <=? i) && (i <? 24 * w + 24))
  && Z.testbit bits (i - 24 * w).

(** ** Views of the flags word, taken together *)

(** Reading a stored value back as a [MemoryRegion]: only 1, 2 and 3 name an
    enumerator. *)
Definition MemoryRegion_of_value (v : Z) : option MemoryRegion :=
  if v =? 1 then Some APPLICATION
  else if v =? 2 then Some SYSTEM
  else if v =? 3 then Some BASE
  else None.

(** The enumerator the [memory_region] field of a flags word names, if
    any. *)
Definition ProcessFlags_memory_region (f : ProcessFlags) : option MemoryRegion :=
  MemoryRegion_of_value (memory_region_field f).

(** The nine one-bit views of [union ProcessFlags], in declaration order,
    and the bit each one is declared at. *)
Definition ProcessFlags_bool_views (f : ProcessFlags) : list bool :=
  [allow_debug f; force_debug f; allow_nonalphanum f; shared_page_writable f;
   privileged_priority f; allow_main_args f; shared_device_mem f;
   runnable_on_sleep f; loaded_high f].

Definition BOOL_FLAG_BITS : list Z := [0; 1; 2; 3; 4; 5; 6; 7; 12].

(** The word whose fields hold the given values, each at its declared
    position. *)
Definition ProcessFlags_pack (ad fd an spw pp ama sdm ros : bool) (mr : Z)
    (lh : bool) : Z :=
  Z.b2z ad + 2 * Z.b2z fd + 4 * Z.b2z an + 8 * Z.b2z spw + 16 * Z.b2z pp
  + 32 * Z.b2z ama + 64 * Z.b2z sdm + 128 * Z.b2z ros + 256 * mr
  + 4096 * Z.b2z lh.

(** A flags word read through its ten views and put together again. *)
Definition ProcessFlags_repack (f : ProcessFlags) : Z :=
  ProcessFlags_pack (allow_debug f) (force_debug f) (allow_nonalphanum f)
    (shared_page_writable f) (privileged_priority f) (allow_main_args f)
    (shared_device_mem f) (runnable_on_sleep f) (memory_region_field f)
    (loaded_high f).

(** Writing one bit of the raw word. *)
Definition write_bit (raw k : Z) (b : bool) : Z :=
  if b then Z.setbit raw k else Z.clearbit raw k.

(** * Properties *)

(** ** Machine integers *)

Lemma wrap32_small z : is_u32 z -> wrap32 z = z.
Proof. intros H; unfold wrap32; apply Z.mod_small; exact H. Qed.

Lemma wrap32_is_u32 z : is_u32 (wrap32 z).
Proof. unfold wrap32, is_u32, U32_MOD; apply Z.mod_pos_bound; lia. Qed.

Lemma wrap32_add_l a b : wrap32 (wrap32 a + b) = wrap32 (a + b).
Proof. unfold wrap32; apply Zplus_mod_idemp_l. Qed.

(** ** Process identifiers *)

Lemma Create_process_id cs k :
  process_id (fst (Create cs k)) = next_process_id k.
Proof. reflexivity. Qed.

Lemma Create_next cs k :
  next_process_id (snd (Create cs k)) = wrap32 (next_process_id k + 1).
Proof. reflexivity. Qed.

Lemma Create_kernel_wf cs k : kernel_wf (snd (Create cs k)).
Proof. unfold kernel_wf; rewrite Create_next; apply wrap32_is_u32. Qed.

Lemma created_ids_cons cs css k :
  created_ids (cs :: css) k
  = next_process_id k :: created_ids css (snd (Create cs k)).
Proof.
  unfold created_ids; simpl.
  destruct (create_all css _) as [ps k2]; reflexivity.
Qed.

Lemma created_ids_length css : forall k,
  List.length (created_ids css k) = List.length css.
Proof.
  induction css as [|cs css IH]; intros k; [reflexivity|].
  rewrite created_ids_cons; simpl; now rewrite IH.
Qed.

(** The closed form of the identifier sequence. *)
Lemma created_ids_nth css : forall k n,
  kernel_wf k -> (n < List.length css)%nat ->
  nth_error (created_ids css k) n
  = Some (wrap32 (next_process_id k + Z.of_nat n)).
Proof.
  induction css as [|cs css IH]; intros k n Hk Hn; simpl in Hn; [lia|].
  rewrite created_ids_cons.
  destruct n as [|n]; cbn [nth_error].
  - rewrite Z.add_0_r, wrap32_small by exact Hk; reflexivity.
  - rewrite IH; [|apply Create_kernel_wf|lia].
    rewrite Create_next, wrap32_add_l.
    f_equal; f_equal; lia.
Qed.

Lemma created_ids_lower_bound css : forall k,
  kernel_wf k ->
  next_process_id k + Z.of_nat (List.length css) <= U32_MOD ->
  Forall (fun i => next_process_id k <= i) (created_ids css k).
Proof.
  induction css as [|cs css IH]; intros k Hk Hlen.
  - constructor.
  - rewrite created_ids_cons; simpl List.length in Hlen.
    constructor; [lia|].
    destruct css as [|cs' css]; [constructor|].
    assert (Hn : next_process_id (snd (Create cs k)) = next_process_id k + 1).
    { rewrite Create_next; apply wrap32_small.
      unfold kernel_wf, is_u32 in *; simpl List.length in Hlen; lia. }
    eapply Forall_impl; [|apply IH].
    + intros i Hi; cbv beta in Hi; rewrite Hn in Hi; lia.
    + apply Create_kernel_wf.
    + rewrite Hn; simpl List.length in *; lia.
Qed.

Lemma created_ids_sorted css : forall k,
  kernel_wf k ->
  next_process_id k + Z.of_nat (List.length css) <= U32_MOD ->
  StronglySorted Z.lt (created_ids css k).
Proof.
  induction css as [|cs css IH]; intros k Hk Hlen.
  - constructor.
  - rewrite created_ids_cons; simpl List.length in Hlen.
    destruct css as [|cs' css]; [repeat constructor|].
    assert (Hn : next_process_id (snd (Create cs k)) = next_process_id k + 1).
    { rewrite Create_next; apply wrap32_small.
      unfold kernel_wf, is_u32 in *; simpl List.length in Hlen; lia. }
    constructor.
    + apply IH; [apply Create_kernel_wf|rewrite Hn; simpl List.length in *; lia].
    + eapply Forall_impl;
        [|apply created_ids_lower_bound;
          [apply Create_kernel_wf|rewrite Hn; simpl List.length in *; lia]].
      intros i Hi; cbv beta in Hi; rewrite Hn in Hi; lia.
Qed.

Lemma StronglySorted_lt_NoDup (l : list Z) :
  StronglySorted Z.lt l -> NoDup l.
Proof.
  induction 1 as [|a l Hs IH Hall]; constructor; [|exact IH].
  intros Hin; rewrite Forall_forall in Hall; specialize (Hall a Hin); lia.
Qed.

(** C1, as amended: as long as the 32-bit counter does not wrap during the
    sequence of [Create] calls (its starting value plus the number of calls
    is at most 2^32), the identifiers handed out are strictly increasing in
    call order and pairwise distinct. *)
Theorem process_ids_increasing_until_wrap (css : list CodeSet) (k : Kernel) :
  kernel_wf k ->
  next_process_id k + Z.of_nat (List.length css) <= U32_MOD ->
  StronglySorted Z.lt (created_ids css k) /\ NoDup (created_ids css k).
Proof.
  intros Hk Hlen.
  assert (Hs := created_ids_sorted css k Hk Hlen).
  split; [exact Hs|apply StronglySorted_lt_NoDup; exact Hs].
Qed.

Lemma process_ids_increasing_until_wrap_witness :
  StronglySorted Z.lt
    (created_ids [sample_codeset; sample_codeset; sample_codeset] kernel_boot)
  /\ NoDup
    (created_ids [sample_codeset; sample_codeset; sample_codeset] kernel_boot).
Proof.
  apply process_ids_increasing_until_wrap.
  - unfold kernel_wf, is_u32, U32_MOD; simpl; lia.
  - unfold U32_MOD; simpl; lia.
Defined.

(** C1 as stated fails: in a run of 2^32 + 1 [Create] calls from a counter
    at 0, the first and the last process get the same identifier 0. *)
Lemma process_id_reused_after_wrap :
  nth_error
    (created_ids (repeat sample_codeset (Z.to_nat 4294967297)) kernel_boot) 0
  = Some 0
  /\ nth_error
    (created_ids (repeat sample_codeset (Z.to_nat 4294967297)) kernel_boot)
    (Z.to_nat 4294967296)
  = Some 0.
Proof.
  assert (Hk : kernel_wf kernel_boot)
    by (unfold kernel_wf, is_u32, U32_MOD; simpl; lia).
  split.
  - rewrite created_ids_nth; [reflexivity|exact Hk|].
    rewrite repeat_length; lia.
  - rewrite created_ids_nth; [|exact Hk|rewrite repeat_length; lia].
    rewrite Z2Nat.id by lia; reflexivity.
Qed.

(** C9: identifiers come from post-incrementing a 32-bit counter: the
    (n+1)-th process created gets the starting value plus n, modulo 2^32, so
    the identifier handed out 2^32 creations later is the same again. *)
Theorem process_id_is_counter_mod_2_32 (css : list CodeSet) (k : Kernel) (n : nat) :
  kernel_wf k ->
  (n < List.length css)%nat ->
  nth_error (created_ids css k) n
  = Some ((next_process_id k + Z.of_nat n) mod 2 ^ 32)
  /\ forall m : nat,
       (m < List.length css)%nat ->
       Z.of_nat m = Z.of_nat n + 2 ^ 32 ->
       nth_error (created_ids css k) m = nth_error (created_ids css k) n.
Proof.
  intros Hk Hn; split.
  - rewrite created_ids_nth by assumption; reflexivity.
  - intros m Hm Hmn.
    rewrite !created_ids_nth by assumption.
    rewrite Hmn; unfold wrap32, U32_MOD.
    f_equal.
    replace (next_process_id k + (Z.of_nat n + 2 ^ 32))
      with (next_process_id k + Z.of_nat n + 1 * 4294967296) by lia.
    apply Z_mod_plus_full.
Qed.

Lemma process_id_is_counter_mod_2_32_witness :
  nth_error
    (created_ids [sample_codeset; sample_codeset; sample_codeset]
       (mkKernel 4294967295)) 2%nat
  = Some ((4294967295 + 2) mod 2 ^ 32).
Proof.
  apply (proj1 (process_id_is_counter_mod_2_32
           [sample_codeset; sample_codeset; sample_codeset]
           (mkKernel 4294967295) 2 ltac:(unfold kernel_wf, is_u32, U32_MOD; simpl; lia)
           ltac:(simpl; lia))).
Defined.

(** ** Creation defaults and object identity *)

(** C8: right after [Create], before any capability is parsed, the handle
    table holds 512 entries and no SVC is permitted. *)
Theorem Create_defaults (cs : CodeSet) (k : Kernel) :
  handle_table_size (fst (Create cs k)) = 512
  /\ svc_access_mask (fst (Create cs k)) = 0
  /\ forall i : Z, Z.testbit (svc_access_mask (fst (Create cs k))) i = false.
Proof.
  repeat split.
  intros i; apply Z.bits_0.
Qed.

Lemma Create_binds_codeset cs k : codeset (fst (Create cs k)) = Some cs.
Proof. reflexivity. Qed.

(** C10: a process bound to a code set is named after it, is of type
    "Process" and carries the Process handle tag; a code set answers with its
    own name and the CodeSet tag. *)
Theorem object_identity (p : Process) (cs : CodeSet) :
  codeset p = Some cs ->
  Process_GetName p = Some (name cs)
  /\ Process_GetTypeName p = "Process"%string
  /\ Process_GetHandleType p = HandleType_Process
  /\ (forall c : CodeSet,
        CodeSet_GetHandleType c = HandleType_CodeSet
        /\ CodeSet_GetName c = name c).
Proof.
  intros Hcs; unfold Process_GetName; rewrite Hcs.
  repeat split.
Qed.

Lemma object_identity_witness :
  Process_GetName sample_process = Some "app"%string
  /\ Process_GetTypeName sample_process = "Process"%string
  /\ Process_GetHandleType sample_process = HandleType_Process
  /\ (forall c : CodeSet,
        CodeSet_GetHandleType c = HandleType_CodeSet
        /\ CodeSet_GetName c = name c).
Proof.
  exact (object_identity sample_process sample_codeset
           (Create_binds_codeset sample_codeset kernel_boot)).
Defined.

(** ** SlotBitmap *)

Lemma lowest_unset_from_sound bits : forall n i k,
  lowest_unset_from bits i n = Some k ->
  i <= k < i + Z.of_nat n
  /\ Z.testbit bits k = false
  /\ forall j, i <= j < k -> Z.testbit bits j = true.
Proof.
  induction n as [|n IH]; intros i k H; simpl in H; [discriminate|].
  destruct (Z.testbit bits i) eqn:Hi.
  - apply IH in H; destruct H as (Hr & Hk & Hlow).
    split; [lia|]; split; [exact Hk|].
    intros j Hj; destruct (Z.eq_dec j i) as [->|Hne]; [exact Hi|].
    apply Hlow; lia.
  - injection H as <-; split; [lia|]; split; [exact Hi|].
    intros j Hj; lia.
Qed.

Lemma lowest_unset_from_found bits : forall n i k,
  (forall j, i <= j < k -> Z.testbit bits j = true) ->
  Z.testbit bits k = false ->
  i <= k < i + Z.of_nat n ->
  lowest_unset_from bits i n = Some k.
Proof.
  induction n as [|n IH]; intros i k Hlow Hk Hr; [lia|].
  simpl; destruct (Z.testbit bits i) eqn:Hi.
  - assert (i <> k) by (intros ->; congruence).
    apply IH; [intros j Hj; apply Hlow; lia|exact Hk|lia].
  - destruct (Z.eq_dec i k) as [->|Hne]; [reflexivity|].
    rewrite Hlow in Hi by lia; discriminate.
Qed.

Lemma lowest_unset_from_none bits : forall n i,
  (forall j, i <= j < i + Z.of_nat n -> Z.testbit bits j = true) ->
  lowest_unset_from bits i n = None.
Proof.
  induction n as [|n IH]; intros i Hall; [reflexivity|].
  simpl; rewrite (Hall i) by lia.
  apply IH; intros j Hj; apply Hall; lia.
Qed.

Lemma setbit_ones m : 0 <= m -> Z.setbit (Z.ones m) m = Z.ones (m + 1).
Proof.
  intros Hm; apply Z.bits_inj'; intros j Hj.
  rewrite Z.setbit_eqb, !Z.testbit_ones_nonneg by lia.
  destruct (Z.eqb_spec m j), (Z.ltb_spec j m), (Z.ltb_spec j (m + 1));
    simpl; try reflexivity; lia.
Qed.

Lemma setbit_clearbit_ones n i :
  0 <= i < n -> Z.setbit (Z.clearbit (Z.ones n) i) i = Z.ones n.
Proof.
  intros Hi; apply Z.bits_inj'; intros j Hj.
  rewrite Z.setbit_eqb, Z.clearbit_eqb, !Z.testbit_ones_nonneg by lia.
  destruct (Z.eqb_spec i j), (Z.ltb_spec j n); simpl; try reflexivity; lia.
Qed.

(** An allocation hands out the lowest clear slot and marks it. *)
Lemma SlotBitmap_Allocate_lowest bits i bits' :
  SlotBitmap_Allocate bits = (Ok i, bits') ->
  0 <= i < 300
  /\ Z.testbit bits i = false
  /\ (forall j, 0 <= j < i -> Z.testbit bits j = true)
  /\ bits' = Z.setbit bits i.
Proof.
  unfold SlotBitmap_Allocate.
  destruct (lowest_unset_from bits 0 TLS_SLOTS) as [k|] eqn:Hk; [|discriminate].
  intros H; injection H as <- <-.
  apply lowest_unset_from_sound in Hk; destruct Hk as (Hr & Hc & Hlow).
  unfold TLS_SLOTS in Hr.
  split; [lia|]; split; [exact Hc|]; split; [exact Hlow|reflexivity].
Qed.

Lemma SlotBitmap_Allocate_ones m :
  0 <= m < 300 ->
  SlotBitmap_Allocate (Z.ones m) = (Ok m, Z.ones (m + 1)).
Proof.
  intros Hm; unfold SlotBitmap_Allocate.
  rewrite (lowest_unset_from_found (Z.ones m) TLS_SLOTS 0 m).
  - rewrite setbit_ones by lia; reflexivity.
  - intros j Hj; apply Z.ones_spec_low; lia.
  - apply Z.ones_spec_high; lia.
  - unfold TLS_SLOTS; lia.
Qed.

Lemma SlotBitmap_Allocate_full :
  SlotBitmap_Allocate (Z.ones 300) = (Err ResourceExhausted, Z.ones 300).
Proof.
  unfold SlotBitmap_Allocate.
  rewrite lowest_unset_from_none; [reflexivity|].
  intros j Hj; apply Z.ones_spec_low; unfold TLS_SLOTS in Hj; lia.
Qed.

Lemma allocate_many_from_ones : forall n m,
  (m + n <= 300)%nat ->
  allocate_many n (Z.ones (Z.of_nat m))
  = (map (fun i => Ok (Z.of_nat i)) (seq m n), Z.ones (Z.of_nat (m + n))).
Proof.
  induction n as [|n IH]; intros m Hmn.
  - simpl; rewrite Nat.add_0_r; reflexivity.
  - cbn [allocate_many].
    rewrite SlotBitmap_Allocate_ones by lia.
    replace (Z.of_nat m + 1) with (Z.of_nat (S m)) by lia.
    rewrite IH by lia.
    replace (S m + n)%nat with (m + S n)%nat by lia.
    reflexivity.
Qed.

(** C6: from the empty 300-slot bitmap, 300 allocations in a row succeed and
    hand out slots 0, 1, ..., 299 (each the lowest clear slot, which the call
    marks); the 301st fails with ResourceExhausted; and once any one slot of
    the full bitmap is freed, the next allocation returns that very slot and
    the one after it fails again. *)
Theorem tls_bitmap_exhaustion :
  (forall bits i bits',
      SlotBitmap_Allocate bits = (Ok i, bits') ->
      0 <= i < 300
      /\ Z.testbit bits i = false
      /\ (forall j, 0 <= j < i -> Z.testbit bits j = true)
      /\ bits' = Z.setbit bits i)
  /\ allocate_many 300 0
     = (map (fun i => Ok (Z.of_nat i)) (seq 0 300), Z.ones 300)
  /\ SlotBitmap_Allocate (snd (allocate_many 300 0))
     = (Err ResourceExhausted, Z.ones 300)
  /\ (forall i, 0 <= i < 300 ->
      exists bits1,
        SlotBitmap_Free i (snd (allocate_many 300 0)) = (RESULT_SUCCESS, bits1)
        /\ Z.testbit bits1 i = false
        /\ SlotBitmap_Allocate bits1 = (Ok i, Z.ones 300)
        /\ fst (SlotBitmap_Allocate (snd (SlotBitmap_Allocate bits1)))
           = Err ResourceExhausted).
Proof.
  assert (Hall : allocate_many 300 0
                 = (map (fun i => Ok (Z.of_nat i)) (seq 0 300), Z.ones 300)).
  { exact (allocate_many_from_ones 300 0 (Nat.le_refl 300)). }
  split; [exact SlotBitmap_Allocate_lowest|].
  split; [exact Hall|].
  rewrite Hall; cbn [snd].
  split; [exact SlotBitmap_Allocate_full|].
  intros i Hi.
  exists (Z.clearbit (Z.ones 300) i).
  assert (Halloc : SlotBitmap_Allocate (Z.clearbit (Z.ones 300) i)
                   = (Ok i, Z.ones 300)).
  { unfold SlotBitmap_Allocate.
    rewrite (lowest_unset_from_found _ TLS_SLOTS 0 i).
    - rewrite setbit_clearbit_ones by lia; reflexivity.
    - intros j Hj; rewrite Z.clearbit_neq by lia.
      apply Z.ones_spec_low; lia.
    - apply Z.clearbit_eq.
    - unfold TLS_SLOTS; lia. }
  repeat split.
  - unfold SlotBitmap_Free.
    rewrite Z.ones_spec_low by lia.
    destruct (Z.leb_spec 0 i); [|lia].
    destruct (Z.ltb_spec i (Z.of_nat TLS_SLOTS)); [reflexivity|].
    unfold TLS_SLOTS in *; lia.
  - apply Z.clearbit_eq.
  - exact Halloc.
  - rewrite Halloc; cbn [snd]; rewrite SlotBitmap_Allocate_full; reflexivity.
Qed.

Lemma tls_bitmap_exhaustion_witness :
  exists bits1,
    SlotBitmap_Free 137 (snd (allocate_many 300 0)) = (RESULT_SUCCESS, bits1)
    /\ Z.testbit bits1 137 = false
    /\ SlotBitmap_Allocate bits1 = (Ok 137, Z.ones 300)
    /\ fst (SlotBitmap_Allocate (snd (SlotBitmap_Allocate bits1)))
       = Err ResourceExhausted.
Proof.
  apply (proj2 (proj2 (proj2 tls_bitmap_exhaustion)) 137); lia.
Defined.

(** ** Mapped ranges *)

Lemma vm_ordered_from_weaken vm : forall f f',
  f' <= f -> vm_ordered_from f vm -> vm_ordered_from f' vm.
Proof.
  destruct vm as [|v rest]; intros f f' Hle H; simpl in *; [exact I|].
  destruct H as (Hf & Hne & Hrest); repeat split; try assumption; lia.
Qed.

Lemma vm_ordered_from_In vm : forall f v,
  vm_ordered_from f vm -> In v vm -> f <= vma_base v /\ vma_base v < vma_end v.
Proof.
  induction vm as [|w rest IH]; intros f v H Hin; simpl in *; [contradiction|].
  destruct H as (Hf & Hne & Hrest).
  destruct Hin as [->|Hin]; [split; assumption|].
  destruct (IH _ _ Hrest Hin); split; lia.
Qed.

Lemma range_free_In lo hi vm v :
  range_free lo hi vm = true -> In v vm ->
  vma_end v <= lo \/ hi <= vma_base v.
Proof.
  unfold range_free; rewrite forallb_forall; intros H Hin.
  specialize (H v Hin); unfold vma_clear_of in H.
  apply orb_true_iff in H; destruct H as [H|H]; apply Z.leb_le in H; lia.
Qed.

Lemma range_free_intro lo hi vm :
  (forall v, In v vm -> vma_end v <= lo \/ hi <= vma_base v) ->
  range_free lo hi vm = true.
Proof.
  intros H; unfold range_free; rewrite forallb_forall; intros v Hin.
  unfold vma_clear_of; apply orb_true_iff.
  destruct (H v Hin); [left|right]; apply Z.leb_le; assumption.
Qed.

Lemma range_free_mono lo hi lo' hi' vm :
  lo <= lo' -> hi' <= hi ->
  range_free lo hi vm = true -> range_free lo' hi' vm = true.
Proof.
  intros Hlo Hhi H; apply range_free_intro; intros v Hin.
  destruct (range_free_In _ _ _ _ H Hin); lia.
Qed.

Lemma range_free_above vm f lo hi :
  vm_ordered_from f vm -> hi <= f -> range_free lo hi vm = true.
Proof.
  intros H Hle; apply range_free_intro; intros v Hin.
  destruct (vm_ordered_from_In _ _ _ H Hin); lia.
Qed.

Lemma vm_map_In n vm v : In v (vm_map n vm) <-> v = n \/ In v vm.
Proof.
  induction vm as [|w rest IH]; simpl.
  - intuition congruence.
  - destruct (vma_base n <? vma_base w); simpl; [intuition congruence|].
    rewrite IH; intuition congruence.
Qed.

Lemma vm_map_ordered n vm : forall f,
  vm_ordered_from f vm ->
  f <= vma_base n -> vma_base n < vma_end n ->
  range_free (vma_base n) (vma_end n) vm = true ->
  vm_ordered_from f (vm_map n vm).
Proof.
  induction vm as [|v rest IH]; intros f H Hf Hne Hfree.
  - simpl; repeat split; assumption.
  - simpl in H; destruct H as (Hfv & Hnev & Hrest).
    assert (Hv : vma_end v <= vma_base n \/ vma_end n <= vma_base v)
      by (apply (range_free_In _ _ _ _ Hfree); left; reflexivity).
    assert (Hfree' : range_free (vma_base n) (vma_end n) rest = true).
    { apply range_free_intro; intros w Hw.
      apply (range_free_In _ _ _ _ Hfree); right; exact Hw. }
    simpl; destruct (Z.ltb_spec (vma_base n) (vma_base v)).
    + simpl; repeat split; try assumption; lia.
    + simpl; repeat split; try assumption.
      apply IH; try assumption; lia.
Qed.

Lemma vm_map_wf n vm :
  vm_wf vm -> vma_base n < vma_end n ->
  range_free (vma_base n) (vma_end n) vm = true ->
  vm_wf (vm_map n vm).
Proof.
  intros [f H] Hne Hfree.
  exists (Z.min f (vma_base n)).
  apply vm_map_ordered; try assumption; [|lia].
  apply (vm_ordered_from_weaken vm f); [lia|exact H].
Qed.

Lemma vma_cut_ordered lo hi v f tail :
  lo <= hi ->
  f <= vma_base v -> vma_base v < vma_end v ->
  vm_ordered_from (vma_end v) tail ->
  vm_ordered_from f (vma_cut lo hi v ++ tail).
Proof.
  intros Hlh Hf Hne Htail; unfold vma_cut.
  destruct (Z.ltb_spec (vma_base v) (Z.min (vma_end v) lo));
    destruct (Z.ltb_spec (Z.max (vma_base v) hi) (vma_end v)); simpl.
  - repeat split; try assumption; lia.
  - repeat split; try assumption.
    apply (vm_ordered_from_weaken tail (vma_end v)); [lia|exact Htail].
  - repeat split; try assumption; lia.
  - apply (vm_ordered_from_weaken tail (vma_end v)); [lia|exact Htail].
Qed.

Lemma vm_unmap_ordered lo hi vm : forall f,
  lo <= hi -> vm_ordered_from f vm -> vm_ordered_from f (vm_unmap lo hi vm).
Proof.
  induction vm as [|v rest IH]; intros f Hlh H; [exact I|].
  simpl in H; destruct H as (Hf & Hne & Hrest).
  change (vm_unmap lo hi (v :: rest))
    with (vma_cut lo hi v ++ vm_unmap lo hi rest).
  apply vma_cut_ordered; try assumption.
  apply IH; assumption.
Qed.

Lemma vm_unmap_wf lo hi vm : lo <= hi -> vm_wf vm -> vm_wf (vm_unmap lo hi vm).
Proof.
  intros Hlh [f H]; exists f; apply vm_unmap_ordered; assumption.
Qed.

Lemma vma_cut_clear lo hi v w :
  In w (vma_cut lo hi v) -> vma_end w <= lo \/ hi <= vma_base w.
Proof.
  unfold vma_cut; intros Hin; apply in_app_or in Hin.
  destruct Hin as [Hin|Hin].
  - destruct (vma_base v <? Z.min (vma_end v) lo); [|contradiction].
    destruct Hin as [<-|[]]; simpl; lia.
  - destruct (Z.max (vma_base v) hi <? vma_end v); [|contradiction].
    destruct Hin as [<-|[]]; simpl; lia.
Qed.

(** After [unmap] nothing is mapped in the range. *)
Lemma vm_unmap_free lo hi vm : range_free lo hi (vm_unmap lo hi vm) = true.
Proof.
  apply range_free_intro; intros w Hin.
  unfold vm_unmap in Hin; apply in_flat_map in Hin.
  destruct Hin as (v & _ & Hw); exact (vma_cut_clear _ _ _ _ Hw).
Qed.

Lemma range_mapped_empty kind lo hi vm :
  hi <= lo -> range_mapped kind lo hi vm = true.
Proof.
  intros H; destruct vm; simpl; destruct (Z.leb_spec hi lo); try reflexivity; lia.
Qed.

(** A range that was just mapped is mapped. *)
Lemma range_mapped_vm_map kind perms lo hi vm : forall f,
  vm_ordered_from f vm -> lo < hi ->
  range_free lo hi vm = true ->
  range_mapped kind lo hi (vm_map (mkVMA lo hi perms kind) vm) = true.
Proof.
  assert (Hhere : forall tail,
            lo < hi ->
            range_mapped kind lo hi (mkVMA lo hi perms kind :: tail) = true).
  { intros tail Hlt; simpl.
    destruct (Z.leb_spec hi lo); [lia|].
    destruct (Z.leb_spec lo lo); [|lia].
    assert (Hk : VMAKind_eqb kind kind = true) by (destruct kind; reflexivity).
    rewrite Hk; simpl.
    apply range_mapped_empty; lia. }
  induction vm as [|v rest IH]; intros f H Hlt Hfree.
  - apply Hhere; exact Hlt.
  - simpl in H; destruct H as (Hf & Hne & Hrest).
    assert (Hv : vma_end v <= lo \/ hi <= vma_base v)
      by (apply (range_free_In _ _ _ _ Hfree); left; reflexivity).
    assert (Hfree' : range_free lo hi rest = true).
    { apply range_free_intro; intros w Hw.
      apply (range_free_In _ _ _ _ Hfree); right; exact Hw. }
    cbn [vm_map vma_base].
    destruct (Z.ltb_spec lo (vma_base v)).
    + apply Hhere; exact Hlt.
    + cbn [range_mapped].
      destruct (Z.leb_spec hi lo); [lia|].
      destruct (Z.leb_spec (vma_end v) lo); [|lia].
      apply (IH (vma_end v)); assumption.
Qed.

(** ** RegionAllocator *)

Lemma first_fit_sound sz limit vm : forall f cur a,
  vm_ordered_from f vm ->
  first_fit cur limit sz vm = Some a ->
  cur <= a /\ a + sz <= limit /\ range_free a (a + sz) vm = true.
Proof.
  induction vm as [|v rest IH]; intros f cur a H Hfit; simpl in Hfit.
  - destruct (Z.leb_spec (cur + sz) limit); [|discriminate].
    injection Hfit as <-; repeat split; [lia|assumption].
  - simpl in H; destruct H as (Hf & Hne & Hrest).
    destruct (Z.leb_spec (cur + sz) (vma_base v)).
    + destruct (Z.leb_spec (cur + sz) limit); [|discriminate].
      injection Hfit as <-; split; [lia|]; split; [assumption|].
      apply range_free_intro; intros w [<-|Hw]; [right; assumption|].
      destruct (vm_ordered_from_In _ _ _ Hrest Hw); lia.
    + destruct (IH _ _ _ Hrest Hfit) as (Hcur & Hlim & Hfree).
      split; [lia|]; split; [assumption|].
      apply range_free_intro; intros w [<-|Hw]; [left; lia|].
      exact (range_free_In _ _ _ _ Hfree Hw).
Qed.

(** The scan settles on [cur] itself whenever [cur] fits. *)
Lemma first_fit_here sz limit vm : forall cur,
  cur + sz <= limit ->
  range_free cur (cur + sz) vm = true ->
  first_fit cur limit sz vm = Some cur.
Proof.
  induction vm as [|v rest IH]; intros cur Hlim Hfree; simpl.
  - destruct (Z.leb_spec (cur + sz) limit); [reflexivity|lia].
  - destruct (Z.leb_spec (cur + sz) (vma_base v)).
    + destruct (Z.leb_spec (cur + sz) limit); [reflexivity|lia].
    + assert (Hv : vma_end v <= cur \/ cur + sz <= vma_base v)
        by (apply (range_free_In _ _ _ _ Hfree); left; reflexivity).
      replace (Z.max cur (vma_end v)) with cur by lia.
      apply IH; [assumption|].
      apply range_free_intro; intros w Hw.
      apply (range_free_In _ _ _ _ Hfree); right; exact Hw.
Qed.

(** The address the scan settles on is the lowest one that fits. *)
Lemma first_fit_lowest sz limit vm : forall f cur a b,
  vm_ordered_from f vm ->
  first_fit cur limit sz vm = Some a ->
  cur <= b -> range_free b (b + sz) vm = true -> 0 < sz ->
  a <= b.
Proof.
  induction vm as [|v rest IH]; intros f cur a b H Hfit Hb Hfree Hsz;
    simpl in Hfit.
  - destruct (cur + sz <=? limit); [|discriminate].
    injection Hfit as <-; exact Hb.
  - simpl in H; destruct H as (Hf & Hne & Hrest).
    destruct (Z.leb_spec (cur + sz) (vma_base v)).
    + destruct (cur + sz <=? limit); [|discriminate].
      injection Hfit as <-; exact Hb.
    + assert (Hv : vma_end v <= b \/ b + sz <= vma_base v)
        by (apply (range_free_In _ _ _ _ Hfree); left; reflexivity).
      apply (IH _ _ _ b Hrest Hfit); [lia| |exact Hsz].
      apply range_free_intro; intros w Hw.
      apply (range_free_In _ _ _ _ Hfree); right; exact Hw.
Qed.

Lemma region_allocate_sound kind lo hi target sz perms vm a vm' :
  vm_wf vm ->
  region_allocate kind lo hi target sz perms vm = Ok (a, vm') ->
  0 < sz /\ lo <= a /\ a + sz <= hi
  /\ range_free a (a + sz) vm = true
  /\ vm' = vm_map (mkVMA a (a + sz) perms kind) vm
  /\ vm_wf vm'.
Proof.
  intros Hwf H; unfold region_allocate in H.
  destruct (Z.leb_spec sz 0) as [|Hsz]; [discriminate|].
  cbn [orb] in H.
  destruct (negb (page_aligned sz) || negb (page_aligned target));
    [discriminate|].
  assert (Hdone : forall b,
            lo <= b -> b + sz <= hi -> range_free b (b + sz) vm = true ->
            0 < sz /\ lo <= b /\ b + sz <= hi
            /\ range_free b (b + sz) vm = true
            /\ vm_map (mkVMA b (b + sz) perms kind) vm
               = vm_map (mkVMA b (b + sz) perms kind) vm
            /\ vm_wf (vm_map (mkVMA b (b + sz) perms kind) vm)).
  { intros b Hlo Hhi Hfree; repeat split; try assumption.
    apply vm_map_wf; simpl; [assumption|lia|assumption]. }
  destruct (target =? 0).
  - destruct (first_fit lo hi sz vm) as [b|] eqn:Hfit; [|discriminate].
    injection H as <- <-.
    destruct Hwf as [f Hord].
    destruct (first_fit_sound _ _ _ _ _ _ Hord Hfit) as (Hlo & Hhi & Hfree).
    apply Hdone; assumption.
  - destruct (Z.leb_spec lo target); [|discriminate].
    destruct (Z.leb_spec (target + sz) hi); [|discriminate].
    destruct (range_free target (target + sz) vm) eqn:Hfree; [|discriminate].
    injection H as <- <-.
    apply Hdone; assumption.
Qed.

(** A request for an address that lies in the region and is free is granted
    at that address. *)
Lemma region_allocate_at kind lo hi target sz perms vm :
  0 <= lo -> lo <= target -> target + sz <= hi ->
  0 < sz -> page_aligned sz = true -> page_aligned target = true ->
  range_free target (target + sz) vm = true ->
  region_allocate kind lo hi target sz perms vm
  = Ok (target, vm_map (mkVMA target (target + sz) perms kind) vm).
Proof.
  intros H0 Hlo Hhi Hsz Hasz Hat Hfree; unfold region_allocate.
  destruct (Z.leb_spec sz 0); [lia|].
  rewrite Hasz, Hat; cbn [negb orb].
  destruct (Z.eqb_spec target 0) as [Hz|Hnz].
  - assert (lo = target) by lia; subst lo.
    rewrite first_fit_here by assumption; reflexivity.
  - destruct (Z.leb_spec lo target); [|lia].
    destruct (Z.leb_spec (target + sz) hi); [|lia].
    rewrite Hfree; reflexivity.
Qed.

Lemma region_free_wf kind target sz vm vm' :
  vm_wf vm -> 0 <= sz ->
  region_free kind target sz vm = Ok vm' -> vm_wf vm'.
Proof.
  intros Hwf Hsz H; unfold region_free in H.
  destruct (range_mapped kind target (target + sz) vm); [|discriminate].
  injection H as <-; apply vm_unmap_wf; [lia|exact Hwf].
Qed.

(** ** Heap *)

Lemma HeapAllocate_inv target sz perms p r p' :
  HeapAllocate target sz perms p = (r, p') ->
  (exists e, r = Err e /\ p' = p)
  \/ (exists a vm',
        r = Ok a
        /\ region_allocate VMA_Heap (heap_start p) (heap_end p) target sz perms
             (vm_manager p) = Ok (a, vm')
        /\ p' = set_heap_used (wrap32 (heap_used p + sz)) (set_vm_manager vm' p)).
Proof.
  unfold HeapAllocate.
  destruct (region_allocate _ _ _ _ _ _ _) as [[a vm']|e] eqn:Hreg;
    intros H; injection H as <- <-.
  - right; exists a, vm'; repeat split.
  - left; exists e; split; reflexivity.
Qed.

Lemma heap_used_restored hu sz :
  is_u32 hu -> wrap32 (wrap32 (hu + sz) - sz) = hu.
Proof.
  intros H; unfold wrap32.
  rewrite Zminus_mod_idemp_l.
  replace (hu + sz - sz) with hu by lia.
  apply Z.mod_small; exact H.
Qed.

Lemma heap_wf_HeapAllocate target sz perms p :
  heap_wf p -> heap_wf (snd (HeapAllocate target sz perms p)).
Proof.
  intros Hwf.
  destruct (HeapAllocate target sz perms p) as [r p'] eqn:H.
  apply HeapAllocate_inv in H.
  destruct H as [(e & _ & ->)|(a & vm' & _ & Hreg & ->)]; [exact Hwf|].
  destruct Hwf as (Hvm & H0 & Hse & Hu).
  apply region_allocate_sound in Hreg; [|exact Hvm].
  destruct Hreg as (_ & _ & _ & _ & _ & Hvm').
  repeat split; try assumption; apply wrap32_is_u32.
Qed.

Lemma heap_wf_HeapFree target sz p :
  0 <= sz -> heap_wf p -> heap_wf (snd (HeapFree target sz p)).
Proof.
  intros Hsz Hwf; unfold HeapFree.
  destruct (region_free VMA_Heap target sz (vm_manager p)) as [vm'|e] eqn:Hreg;
    [|exact Hwf].
  destruct Hwf as (Hvm & H0 & Hse & Hu).
  repeat split; try assumption; try apply wrap32_is_u32.
  exact (region_free_wf _ _ _ _ _ Hvm Hsz Hreg).
Qed.

(** The four parts of the memory invariant, one goal each. *)
Ltac heap_wf_split := split; [|split; [|split]].

Lemma heap_wf_LinearAllocate target sz perms p :
  heap_wf p -> heap_wf (snd (LinearAllocate target sz perms p)).
Proof.
  intros Hwf; unfold LinearAllocate.
  destruct (memory_region p) as [r|]; [|exact Hwf].
  destruct (region_size r <? region_used r + sz); [exact Hwf|].
  destruct (region_allocate _ _ _ _ _ _ _) as [[a vm']|e] eqn:Hreg;
    [|exact Hwf].
  destruct Hwf as (Hvm & H0 & Hse & Hu).
  apply region_allocate_sound in Hreg; [|exact Hvm].
  destruct Hreg as (_ & _ & _ & _ & _ & Hvm').
  heap_wf_split; assumption.
Qed.

Lemma heap_wf_LinearFree target sz p :
  0 <= sz -> heap_wf p -> heap_wf (snd (LinearFree target sz p)).
Proof.
  intros Hsz Hwf; unfold LinearFree.
  destruct (region_free VMA_Linear target sz (vm_manager p)) as [vm'|e] eqn:Hreg;
    [|exact Hwf].
  destruct Hwf as (Hvm & H0 & Hse & Hu).
  heap_wf_split; try assumption.
  exact (region_free_wf _ _ _ _ _ Hvm Hsz Hreg).
Qed.

Lemma map_segment_wf perms s vm vm' :
  vm_wf vm -> map_segment perms s vm = Ok vm' -> vm_wf vm'.
Proof.
  intros Hwf H; unfold map_segment in H.
  destruct (Z.leb_spec (seg_size s) 0); [injection H as <-; exact Hwf|].
  destruct (range_free _ _ vm) eqn:Hfree; [|discriminate].
  injection H as <-; apply vm_map_wf; simpl; [assumption|lia|assumption].
Qed.

Lemma heap_wf_set_vm_manager vm p :
  heap_wf p -> vm_wf vm -> heap_wf (set_vm_manager vm p).
Proof.
  intros (Hvm & H0 & Hse & Hu) Hwf; heap_wf_split; assumption.
Qed.

Lemma heap_wf_Run prio stack p : heap_wf p -> heap_wf (snd (Run prio stack p)).
Proof.
  intros Hwf; unfold Run, Run_launch; cbn [snd].
  destruct (_ && _); [exact Hwf|].
  destruct (codeset p) as [cs|]; [|exact Hwf].
  destruct (map_segment PERM_RX (code cs) (vm_manager p)) as [vm1|] eqn:H1;
    [|exact Hwf].
  assert (Hw1 : vm_wf vm1) by (eapply map_segment_wf; [apply Hwf|exact H1]).
  destruct (map_segment PERM_R (rodata cs) vm1) as [vm2|] eqn:H2;
    [|apply heap_wf_set_vm_manager; assumption].
  assert (Hw2 : vm_wf vm2) by (eapply map_segment_wf; [apply Hw1|exact H2]).
  destruct (map_segment PERM_RW (data cs) vm2) as [vm3|] eqn:H3;
    [|apply heap_wf_set_vm_manager; assumption].
  assert (Hw3 : vm_wf vm3) by (eapply map_segment_wf; [apply Hw2|exact H3]).
  apply (heap_wf_set_vm_manager vm3 p Hwf Hw3).
Qed.

Lemma heap_wf_Create cs k : heap_wf (fst (Create cs k)).
Proof.
  heap_wf_split; simpl; try lia.
  - exists 0; exact I.
  - unfold is_u32, U32_MOD; lia.
Qed.

(** ** The capability parser *)

Lemma add_mapping_inv m p p' :
  add_mapping m p = Ok p' ->
  (List.length (address_mappings p) < ADDRESS_MAPPINGS_CAPACITY)%nat
  /\ p' = set_address_mappings (address_mappings p ++ [m]) p.
Proof.
  unfold add_mapping.
  destruct (Nat.leb_spec ADDRESS_MAPPINGS_CAPACITY
              (List.length (address_mappings p))) as [|Hlt]; [discriminate|].
  intros Heq; injection Heq as <-; split; [exact Hlt|reflexivity].
Qed.

Lemma add_mapping_full m p :
  (ADDRESS_MAPPINGS_CAPACITY <= List.length (address_mappings p))%nat ->
  add_mapping m p = Err CapabilityError.
Proof.
  intros H; unfold add_mapping.
  destruct (Nat.leb_spec ADDRESS_MAPPINGS_CAPACITY
              (List.length (address_mappings p))); [reflexivity|lia].
Qed.

Lemma add_mapping_room m p :
  (List.length (address_mappings p) < ADDRESS_MAPPINGS_CAPACITY)%nat ->
  add_mapping m p = Ok (set_address_mappings (address_mappings p ++ [m]) p).
Proof.
  intros H; unfold add_mapping.
  destruct (Nat.leb_spec ADDRESS_MAPPINGS_CAPACITY
              (List.length (address_mappings p))); [lia|reflexivity].
Qed.

Section ParserFacts.

Variable abi : AbiTable.

(** Whatever every assignment of the parser keeps, the parser keeps. *)
Lemma parse_descriptors_preserves (P : Process -> Prop) :
  (forall v p, P p -> P (set_svc_access_mask v p)) ->
  (forall v p, P p -> P (set_kernel_version v p)) ->
  (forall v p, P p -> P (set_handle_table_size v p)) ->
  (forall v p, P p -> P (set_flags v p)) ->
  (forall m p p', P p -> add_mapping m p = Ok p' -> P p') ->
  forall ds p, P p -> P (snd (parse_descriptors abi ds p)).
Proof.
  intros Hs Hv Hh Hf Hm ds.
  assert (H : forall n ds, (List.length ds <= n)%nat ->
                forall p, P p -> P (snd (parse_descriptors abi ds p))).
  { induction n as [|n IH]; intros l Hlen p Hp.
    - destruct l; [exact Hp|simpl in Hlen; lia].
    - destruct l as [|d rest]; [exact Hp|].
      simpl in Hlen; cbn [parse_descriptors].
      destruct (decode abi d) as [[w bits|v|h|raw|s f1|a f]|].
      + apply IH; [lia|apply Hs; exact Hp].
      + apply IH; [lia|apply Hv; exact Hp].
      + apply IH; [lia|apply Hh; exact Hp].
      + apply IH; [lia|apply Hf; exact Hp].
      + destruct rest as [|d2 rest']; [exact Hp|].
        simpl in Hlen.
        destruct (decode abi d2) as [[| | | |e f2|]|]; try exact Hp.
        destruct (range_mapping s f1 e f2) as [m|]; [|exact Hp].
        destruct (add_mapping m p) as [p'|] eqn:Hadd; [|exact Hp].
        apply IH; [lia|exact (Hm _ _ _ Hp Hadd)].
      + destruct (page_mapping a f) as [m|]; [|exact Hp].
        destruct (add_mapping m p) as [p'|] eqn:Hadd; [|exact Hp].
        apply IH; [lia|exact (Hm _ _ _ Hp Hadd)].
      + apply IH; [lia|exact Hp]. }
  intros p; apply (H (List.length ds)); apply Nat.le_refl.
Qed.

Lemma heap_wf_ParseKernelCaps ds p :
  heap_wf p -> heap_wf (snd (ParseKernelCaps abi ds p)).
Proof.
  intros Hwf; unfold ParseKernelCaps; cbn [snd].
  apply (parse_descriptors_preserves heap_wf); try (intros; assumption).
  intros m q q' Hq Hadd; apply add_mapping_inv in Hadd.
  destruct Hadd as (_ & ->); exact Hq.
Qed.

Lemma mappings_bounded_ParseKernelCaps ds p :
  (List.length (address_mappings p) <= ADDRESS_MAPPINGS_CAPACITY)%nat ->
  (List.length (address_mappings (snd (ParseKernelCaps abi ds p)))
   <= ADDRESS_MAPPINGS_CAPACITY)%nat.
Proof.
  intros Hb; unfold ParseKernelCaps; cbn [snd].
  apply (parse_descriptors_preserves
           (fun q => (List.length (address_mappings q)
                      <= ADDRESS_MAPPINGS_CAPACITY)%nat));
    try (intros; assumption).
  intros m q q' Hq Hadd; apply add_mapping_inv in Hadd.
  destruct Hadd as (Hlt & ->); simpl.
  rewrite length_app; simpl; lia.
Qed.

(** Every member keeps the memory invariant and the mapping bound. *)
Lemma step_keeps_heap_wf p p' : heap_wf p -> step abi p p' -> heap_wf p'.
Proof.
  intros Hwf Hstep; destruct Hstep.
  - apply heap_wf_ParseKernelCaps; exact Hwf.
  - apply heap_wf_Run; exact Hwf.
  - apply heap_wf_HeapAllocate; exact Hwf.
  - apply heap_wf_HeapFree; [unfold is_u32 in *; lia|exact Hwf].
  - apply heap_wf_LinearAllocate; exact Hwf.
  - apply heap_wf_LinearFree; [unfold is_u32 in *; lia|exact Hwf].
  - unfold AllocateTLSSlot.
    destruct (SlotBitmap_Allocate (used_tls_slots p)); exact Hwf.
  - unfold FreeTLSSlot.
    destruct (SlotBitmap_Free index (used_tls_slots p)); exact Hwf.
Qed.

Lemma step_keeps_mappings p p' :
  step abi p p' ->
  (List.length (address_mappings p) <= ADDRESS_MAPPINGS_CAPACITY)%nat ->
  (List.length (address_mappings p') <= ADDRESS_MAPPINGS_CAPACITY)%nat.
Proof.
  intros Hstep Hb; destruct Hstep.
  - apply mappings_bounded_ParseKernelCaps; exact Hb.
  - unfold Run, Run_launch; cbn [snd].
    destruct (_ && _); [exact Hb|].
    destruct (codeset p) as [cs|]; [|exact Hb].
    destruct (map_segment PERM_RX _ _); [|exact Hb].
    destruct (map_segment PERM_R _ _); [|exact Hb].
    destruct (map_segment PERM_RW _ _); exact Hb.
  - unfold HeapAllocate.
    destruct (region_allocate _ _ _ _ _ _ _) as [[a vm']|]; exact Hb.
  - unfold HeapFree; destruct (region_free _ _ _ _); exact Hb.
  - unfold LinearAllocate.
    destruct (memory_region p) as [r|]; [|exact Hb].
    destruct (_ <? _); [exact Hb|].
    destruct (region_allocate _ _ _ _ _ _ _) as [[a vm']|]; exact Hb.
  - unfold LinearFree; destruct (region_free _ _ _ _); exact Hb.
  - unfold AllocateTLSSlot.
    destruct (SlotBitmap_Allocate (used_tls_slots p)); exact Hb.
  - unfold FreeTLSSlot.
    destruct (SlotBitmap_Free index (used_tls_slots p)); exact Hb.
Qed.

Lemma heap_wf_install_memory lo hi region cs k :
  is_u32 lo -> is_u32 hi -> lo <= hi ->
  heap_wf (install_memory lo hi region (fst (Create cs k))).
Proof.
  intros Hlo Hhi Hle; heap_wf_split; simpl.
  - exists 0; exact I.
  - apply Hlo.
  - exact Hle.
  - unfold is_u32, U32_MOD; lia.
Qed.

Lemma reachable_heap_wf p : reachable abi p -> heap_wf p.
Proof.
  induction 1 as [cs k|cs k lo hi region Hlo Hhi Hle|p p' _ IH Hstep].
  - apply heap_wf_Create.
  - apply heap_wf_install_memory; assumption.
  - exact (step_keeps_heap_wf _ _ IH Hstep).
Qed.

(** No member writes the bounds of the heap region. *)
Lemma step_keeps_bounds p p' :
  step abi p p' -> heap_start p' = heap_start p /\ heap_end p' = heap_end p.
Proof.
  intros Hstep; destruct Hstep.
  - unfold ParseKernelCaps; cbn [snd].
    apply (parse_descriptors_preserves
             (fun q => heap_start q = heap_start p /\ heap_end q = heap_end p));
      try (intros; assumption); [|split; reflexivity].
    intros m q q' Hq Hadd; apply add_mapping_inv in Hadd.
    destruct Hadd as (_ & ->); exact Hq.
  - unfold Run, Run_launch; cbn [snd].
    destruct (_ && _); [split; reflexivity|].
    destruct (codeset p) as [cs|]; [|split; reflexivity].
    destruct (map_segment PERM_RX _ _); [|split; reflexivity].
    destruct (map_segment PERM_R _ _); [|split; reflexivity].
    destruct (map_segment PERM_RW _ _); split; reflexivity.
  - unfold HeapAllocate.
    destruct (region_allocate _ _ _ _ _ _ _) as [[a vm']|]; split; reflexivity.
  - unfold HeapFree; destruct (region_free _ _ _ _); split; reflexivity.
  - unfold LinearAllocate.
    destruct (memory_region p) as [r|]; [|split; reflexivity].
    destruct (_ <? _); [split; reflexivity|].
    destruct (region_allocate _ _ _ _ _ _ _) as [[a vm']|]; split; reflexivity.
  - unfold LinearFree; destruct (region_free _ _ _ _); split; reflexivity.
  - unfold AllocateTLSSlot.
    destruct (SlotBitmap_Allocate (used_tls_slots p)); split; reflexivity.
  - unfold FreeTLSSlot.
    destruct (SlotBitmap_Free index (used_tls_slots p)); split; reflexivity.
Qed.

Lemma steps_heap_wf p0 p : heap_wf p0 -> steps abi p0 p -> heap_wf p.
Proof.
  intros Hwf; induction 1 as [|p1 p2 _ IH Hstep]; [exact Hwf|].
  exact (step_keeps_heap_wf _ _ IH Hstep).
Qed.

Lemma reachable_mappings_bounded p :
  reachable abi p ->
  (List.length (address_mappings p) <= ADDRESS_MAPPINGS_CAPACITY)%nat.
Proof.
  induction 1 as [cs k|cs k lo hi region _ _ _|p p' _ IH Hstep].
  - simpl; unfold ADDRESS_MAPPINGS_CAPACITY; lia.
  - simpl; unfold ADDRESS_MAPPINGS_CAPACITY; lia.
  - exact (step_keeps_mappings _ _ Hstep IH).
Qed.

End ParserFacts.

(** ** Heap containment and the free/allocate round trip *)

Lemma heap_wf_scenario_process : heap_wf scenario_process.
Proof.
  heap_wf_split; simpl; try lia.
  - exists 0; exact I.
  - unfold is_u32, U32_MOD; lia.
Qed.

Lemma reachable_scenario_process abi : reachable abi scenario_process.
Proof.
  change scenario_process
    with (install_memory 134217728 268435456 None
            (fst (Create sample_codeset kernel_boot))).
  apply reachable_install; unfold is_u32, U32_MOD; lia.
Qed.



(** C3: after a successful [HeapAllocate], [HeapFree] on the very range it
    returned succeeds, brings [heap_used] back to what it was before the
    allocation, and leaves the range free: any page-aligned request of
    non-zero size that lies within it is granted at the address asked for. *)
Theorem heap_free_round_trip (p : Process) (target sz : Z)
    (perms : VMAPermission) (a : VAddr) (p1 : Process) :
  heap_wf p ->
  HeapAllocate target sz perms p = (Ok a, p1) ->
  exists p2,
    HeapFree a sz p1 = (RESULT_SUCCESS, p2)
    /\ heap_used p2 = heap_used p
    /\ range_free a (a + sz) (vm_manager p2) = true
    /\ forall t' sz' perms',
         0 < sz' -> page_aligned sz' = true -> page_aligned t' = true ->
         a <= t' -> t' + sz' <= a + sz ->
         fst (HeapAllocate t' sz' perms' p2) = Ok t'.
Proof.
  intros Hwf H.
  apply HeapAllocate_inv in H.
  destruct H as [(e & He & _)|(a' & vm1 & Ha & Hreg & ->)]; [discriminate|].
  injection Ha as <-.
  destruct Hwf as ((f & Hord) & H0 & Hse & Hu).
  apply region_allocate_sound in Hreg; [|exists f; exact Hord].
  destruct Hreg as (Hsz & Hlo & Hhi & Hfree & -> & _).
  assert (Hmapped :
            range_mapped VMA_Heap a (a + sz)
              (vm_map (mkVMA a (a + sz) perms VMA_Heap) (vm_manager p)) = true).
  { apply (range_mapped_vm_map _ _ _ _ _ f); [exact Hord|lia|exact Hfree]. }
  eexists; split; [|split; [|split]].
  - unfold HeapFree, region_free; cbn [vm_manager set_heap_used set_vm_manager].
    rewrite Hmapped; reflexivity.
  - cbn [heap_used set_heap_used set_vm_manager].
    apply heap_used_restored; exact Hu.
  - cbn [vm_manager set_heap_used set_vm_manager]; apply vm_unmap_free.
  - intros t' sz' perms' Hsz' Hasz Hat Hlt Hle.
    unfold HeapAllocate;
      cbn [vm_manager heap_start heap_end set_heap_used set_vm_manager].
    rewrite region_allocate_at; try assumption; try lia; [reflexivity|].
    apply (range_free_mono a (a + sz)); [lia|lia|apply vm_unmap_free].
Qed.

Lemma heap_free_round_trip_witness :
  exists p2,
    HeapFree 134217728 8192
      (snd (HeapAllocate 0 8192 PERM_RW scenario_process))
    = (RESULT_SUCCESS, p2)
    /\ heap_used p2 = heap_used scenario_process
    /\ range_free 134217728 (134217728 + 8192) (vm_manager p2) = true
    /\ forall t' sz' perms',
         0 < sz' -> page_aligned sz' = true -> page_aligned t' = true ->
         134217728 <= t' -> t' + sz' <= 134217728 + 8192 ->
         fst (HeapAllocate t' sz' perms' p2) = Ok t'.
Proof.
  apply (heap_free_round_trip scenario_process 0 8192 PERM_RW 134217728
           (snd (HeapAllocate 0 8192 PERM_RW scenario_process))).
  - exact heap_wf_scenario_process.
  - reflexivity.
Defined.

(** The scenario of the design document: two allocations of one page with a
    zero target on the scenario process give two disjoint pages in ascending
    order and [heap_used = 0x2000]. *)
Example scenario_two_allocations :
  let r1 := HeapAllocate 0 4096 PERM_RW scenario_process in
  let r2 := HeapAllocate 0 4096 PERM_RW (snd r1) in
  fst r1 = Ok 134217728 /\ fst r2 = Ok 134221824
  /\ heap_used (snd r2) = 8192.
Proof. repeat split. Qed.

(** ** SVC access mask *)

Lemma svc_apply_zero_testbit w bits i :
  Z.testbit (svc_apply w bits 0) i
  = ((0 <=? i) && (i <? 128)) && ((24 * w <=? i) && (i <? 24 * w + 24))
    && Z.testbit bits (i - 24 * w).
Proof.
  unfold svc_apply, SVC_MASK_BITS.
  rewrite Z.land_spec, Z.lor_spec, Z.bits_0; cbn [orb].
  destruct (Z.leb_spec 0 i) as [Hi|Hi].
  - rewrite Z.shiftl_spec, Z.land_spec by exact Hi.
    rewrite (Z.testbit_ones 24), (Z.testbit_ones_nonneg 128) by lia.
    destruct (Z.ltb_spec i 128), (Z.leb_spec (24 * w) i),
      (Z.ltb_spec i (24 * w + 24)), (Z.leb_spec 0 (i - 24 * w)),
      (Z.ltb_spec (i - 24 * w) 24), (Z.testbit bits (i - 24 * w));
      simpl; try reflexivity; lia.
  - rewrite (Z.testbit_neg_r _ i) by exact Hi.
    rewrite (Z.testbit_neg_r _ i) by exact Hi.
    reflexivity.
Qed.

Section SvcFacts.

Variable abi : AbiTable.

(** A parse that runs to its end applies every SVC fragment of the
    sequence, in order, and nothing else touches the mask. *)
Lemma parse_descriptors_mask : forall n ds,
  (List.length ds <= n)%nat ->
  forall p p',
    parse_descriptors abi ds p = (RESULT_SUCCESS, p') ->
    svc_access_mask p'
    = apply_svc_list (svc_descriptors abi ds) (svc_access_mask p).
Proof.
  unfold RESULT_SUCCESS.
  induction n as [|n IH]; intros ds Hlen p p' H.
  - destruct ds; [|simpl in Hlen; lia].
    simpl in H; injection H as <-; reflexivity.
  - destruct ds as [|d rest]; [simpl in H; injection H as <-; reflexivity|].
    simpl in Hlen; cbn [parse_descriptors svc_descriptors] in *.
    destruct (decode abi d) as [[w bits|v|h|raw|s f1|a f]|].
    + apply IH in H; [|lia]; exact H.
    + apply IH in H; [|lia]; exact H.
    + apply IH in H; [|lia]; exact H.
    + apply IH in H; [|lia]; exact H.
    + destruct rest as [|d2 rest']; [discriminate|].
      simpl in Hlen; cbn [svc_descriptors].
      destruct (decode abi d2) as [[| | | |e f2|]|]; try discriminate.
      destruct (range_mapping s f1 e f2) as [m|]; [|discriminate].
      destruct (add_mapping m p) as [q|] eqn:Hadd; [|discriminate].
      apply add_mapping_inv in Hadd; destruct Hadd as (_ & ->).
      apply IH in H; [|lia]; exact H.
    + destruct (page_mapping a f) as [m|]; [|discriminate].
      destruct (add_mapping m p) as [q|] eqn:Hadd; [|discriminate].
      apply add_mapping_inv in Hadd; destruct Hadd as (_ & ->).
      apply IH in H; [|lia]; exact H.
    + apply IH in H; [|lia]; exact H.
Qed.

Lemma svc_descriptors_app l1 l2 :
  svc_descriptors abi (l1 ++ l2)
  = svc_descriptors abi l1 ++ svc_descriptors abi l2.
Proof.
  induction l1 as [|d l1 IH]; [reflexivity|].
  cbn [app svc_descriptors].
  destruct (decode abi d) as [[w bits| | | | |]|]; rewrite IH; reflexivity.
Qed.

(** A parse that ran to its end over a first part goes on with the rest
    from the state it reached. *)
Lemma parse_descriptors_app : forall n pre,
  (List.length pre <= n)%nat ->
  forall p rest,
    fst (parse_descriptors abi pre p) = RESULT_SUCCESS ->
    parse_descriptors abi (pre ++ rest) p
    = parse_descriptors abi rest (snd (parse_descriptors abi pre p)).
Proof.
  unfold RESULT_SUCCESS.
  induction n as [|n IH]; intros pre Hlen p rest H.
  - destruct pre; [reflexivity|simpl in Hlen; lia].
  - destruct pre as [|d pre']; [reflexivity|].
    simpl in Hlen; cbn [app parse_descriptors] in *.
    destruct (decode abi d) as [[w bits|v|h|raw|s f1|a f]|].
    + apply IH; [lia|exact H].
    + apply IH; [lia|exact H].
    + apply IH; [lia|exact H].
    + apply IH; [lia|exact H].
    + destruct pre' as [|d2 pre'']; [discriminate|].
      simpl in Hlen; cbn [app].
      destruct (decode abi d2) as [[| | | |e f2|]|]; try discriminate.
      destruct (range_mapping s f1 e f2) as [m|]; [|discriminate].
      destruct (add_mapping m p) as [q|]; [|discriminate].
      apply IH; [lia|exact H].
    + destruct (page_mapping a f) as [m|]; [|discriminate].
      destruct (add_mapping m p) as [q|]; [|discriminate].
      apply IH; [lia|exact H].
    + apply IH; [lia|exact H].
Qed.

(** However a parse ends, the mask it leaves is the one made by the SVC
    fragments it got to, a first part of those the sequence holds. *)
Lemma parse_descriptors_mask_prefix : forall n ds,
  (List.length ds <= n)%nat ->
  forall p,
    exists l l',
      svc_descriptors abi ds = l ++ l'
      /\ svc_access_mask (snd (parse_descriptors abi ds p))
         = apply_svc_list l (svc_access_mask p).
Proof.
  assert (Hstop : forall ds p,
            exists l l',
              svc_descriptors abi ds = l ++ l'
              /\ svc_access_mask p = apply_svc_list l (svc_access_mask p)).
  { intros ds p; exists [], (svc_descriptors abi ds); split; reflexivity. }
  induction n as [|n IH]; intros ds Hlen p.
  - destruct ds; [|simpl in Hlen; lia].
    exists [], []; split; reflexivity.
  - destruct ds as [|d rest]; [exists [], []; split; reflexivity|].
    simpl in Hlen; cbn [parse_descriptors svc_descriptors].
    destruct (decode abi d) as [[w bits|v|h|raw|s f1|a f]|] eqn:Hd.
    + destruct (IH rest ltac:(lia)
                  (set_svc_access_mask (svc_apply w bits (svc_access_mask p)) p))
        as (l & l' & Hl & Hm).
      exists ((w, bits) :: l), l'; split; [rewrite Hl; reflexivity|].
      rewrite Hm; reflexivity.
    + exact (IH rest ltac:(lia) (set_kernel_version (wrap16 v) p)).
    + exact (IH rest ltac:(lia)
               (set_handle_table_size
                  (Z.min h (abi_max_handle_table_size abi)) p)).
    + exact (IH rest ltac:(lia) (set_flags (wrap16 raw) p)).
    + destruct rest as [|d2 rest']; [apply (Hstop [] p)|].
      simpl in Hlen.
      destruct (decode abi d2) as [[| | | |e f2|]|] eqn:Hd2;
        try apply Hstop.
      destruct (range_mapping s f1 e f2) as [m|]; [|apply Hstop].
      destruct (add_mapping m p) as [q|] eqn:Hadd; [|apply Hstop].
      apply add_mapping_inv in Hadd; destruct Hadd as (_ & ->).
      cbn [svc_descriptors]; rewrite Hd2.
      destruct (IH rest' ltac:(lia)
                  (set_address_mappings (address_mappings p ++ [m]) p))
        as (l & l' & Hl & Hm).
      exists l, l'; split; [exact Hl|exact Hm].
    + destruct (page_mapping a f) as [m|]; [|apply Hstop].
      destruct (add_mapping m p) as [q|] eqn:Hadd; [|apply Hstop].
      apply add_mapping_inv in Hadd; destruct Hadd as (_ & ->).
      destruct (IH rest ltac:(lia)
                  (set_address_mappings (address_mappings p ++ [m]) p))
        as (l & l' & Hl & Hm).
      exists l, l'; split; [exact Hl|exact Hm].
    + apply IH; lia.
Qed.

Lemma window_bit_spec w bits i :
  Z.testbit (svc_apply w bits 0) i = window_bit w bits i.
Proof. apply svc_apply_zero_testbit. Qed.


End SvcFacts.


(** ** The mapping cap *)

Section MappingFacts.

Variable abi : AbiTable.

Lemma valid_range_pair_inv pr :
  valid_range_pair abi pr = true ->
  exists s f1 e f2 m,
    decode abi (fst pr) = Some (MappedMemoryRange s f1)
    /\ decode abi (snd pr) = Some (MappedMemoryRange e f2)
    /\ range_mapping s f1 e f2 = Ok m.
Proof.
  unfold valid_range_pair, range_mapping.
  destruct (decode abi (fst pr)) as [[| | | |s f1|]|]; try discriminate.
  destruct (decode abi (snd pr)) as [[| | | |e f2|]|]; try discriminate.
  intros H; apply andb_true_iff in H; destruct H as (H & Hae).
  apply andb_true_iff in H; destruct H as (Hle & Has).
  exists s, f1, e, f2; eexists; repeat split.
  rewrite Has, Hae; apply Z.leb_le in Hle.
  destruct (Z.ltb_spec e s); [lia|reflexivity].
Qed.

(** A single descriptor that maps no memory is applied and the parse goes
    on. *)
Lemma parse_single d rest p :
  item_ok abi (Single d) = true ->
  parse_descriptors abi (d :: rest) p
  = parse_descriptors abi rest (apply_single abi d p).
Proof.
  unfold item_ok, apply_single; cbn [parse_descriptors].
  destruct (decode abi d) as [[| | | | |]|]; try discriminate; reflexivity.
Qed.

Lemma apply_single_mappings d p :
  address_mappings (apply_single abi d p) = address_mappings p.
Proof.
  unfold apply_single.
  destruct (decode abi d) as [[| | | | |]|]; reflexivity.
Qed.

(** A well-formed pair is entered while the vector has room, and refused,
    ending the parse, once it is full. *)
Lemma parse_pair a b :
  valid_range_pair abi (a, b) = true ->
  exists m, forall rest p,
    parse_descriptors abi (a :: b :: rest) p
    = if (List.length (address_mappings p) <? ADDRESS_MAPPINGS_CAPACITY)%nat
      then parse_descriptors abi rest
             (set_address_mappings (address_mappings p ++ [m]) p)
      else (Err CapabilityError, p).
Proof.
  intros Hpair.
  destruct (valid_range_pair_inv _ Hpair)
    as (s & f1 & e & f2 & m & Hd1 & Hd2 & Hm).
  cbn [fst snd] in Hd1, Hd2.
  exists m; intros rest p; cbn [parse_descriptors]; rewrite Hd1, Hd2, Hm.
  destruct (Nat.ltb_spec (List.length (address_mappings p))
              ADDRESS_MAPPINGS_CAPACITY) as [Hroom|Hfull].
  - rewrite add_mapping_room by exact Hroom; reflexivity.
  - rewrite add_mapping_full by exact Hfull; reflexivity.
Qed.

(** As long as the pairs fit, the parse runs to its end and every pair has
    become an entry. *)
Lemma parse_items_fit items : forall p,
  forallb (item_ok abi) items = true ->
  (List.length (address_mappings p) + count_pairs items
   <= ADDRESS_MAPPINGS_CAPACITY)%nat ->
  fst (parse_descriptors abi (flatten_items items) p) = RESULT_SUCCESS
  /\ List.length
       (address_mappings (snd (parse_descriptors abi (flatten_items items) p)))
     = (List.length (address_mappings p) + count_pairs items)%nat.
Proof.
  induction items as [|[a b|d] items IH]; intros p Hok Hfit.
  - simpl; split; [reflexivity|lia].
  - cbn [forallb] in Hok; apply andb_true_iff in Hok.
    destruct Hok as (Hpair & Hrest).
    cbn [flatten_items count_pairs] in *.
    destruct (parse_pair a b Hpair) as (m & Hstep); rewrite Hstep.
    destruct (Nat.ltb_spec (List.length (address_mappings p))
                ADDRESS_MAPPINGS_CAPACITY) as [Hroom|Hfull]; [|lia].
    specialize (IH (set_address_mappings (address_mappings p ++ [m]) p) Hrest).
    cbn [address_mappings set_address_mappings] in IH.
    rewrite length_app in IH; cbn [List.length] in IH.
    destruct IH as (IH1 & IH2); [lia|].
    split; [exact IH1|rewrite IH2; lia].
  - cbn [forallb] in Hok; apply andb_true_iff in Hok.
    destruct Hok as (Hsingle & Hrest).
    cbn [flatten_items count_pairs] in *.
    rewrite parse_single by exact Hsingle.
    specialize (IH (apply_single abi d p) Hrest).
    rewrite apply_single_mappings in IH.
    apply IH; exact Hfit.
Qed.

(** Once the pairs no longer fit, the parse is stopped with CapabilityError
    by the pair that finds the vector full, in the state the descriptors
    before that pair left. *)
Lemma parse_items_overflow items : forall p,
  forallb (item_ok abi) items = true ->
  (List.length (address_mappings p) <= ADDRESS_MAPPINGS_CAPACITY)%nat ->
  (ADDRESS_MAPPINGS_CAPACITY
   < List.length (address_mappings p) + count_pairs items)%nat ->
  exists pre a b post,
    items = pre ++ RangePair a b :: post
    /\ (List.length (address_mappings p) + count_pairs pre
        = ADDRESS_MAPPINGS_CAPACITY)%nat
    /\ fst (parse_descriptors abi (flatten_items pre) p) = RESULT_SUCCESS
    /\ parse_descriptors abi (flatten_items items) p
       = (Err CapabilityError,
          snd (parse_descriptors abi (flatten_items pre) p)).
Proof.
  induction items as [|[a b|d] items IH]; intros p Hok Hb Hover.
  - simpl in Hover; lia.
  - cbn [forallb] in Hok; apply andb_true_iff in Hok.
    destruct Hok as (Hpair & Hrest).
    cbn [flatten_items count_pairs] in *.
    destruct (parse_pair a b Hpair) as (m & Hstep).
    rewrite !Hstep.
    destruct (Nat.ltb_spec (List.length (address_mappings p))
                ADDRESS_MAPPINGS_CAPACITY) as [Hroom|Hfull].
    + specialize (IH (set_address_mappings (address_mappings p ++ [m]) p) Hrest).
      cbn [address_mappings set_address_mappings] in IH.
      rewrite length_app in IH; cbn [List.length] in IH.
      destruct IH as (pre & a' & b' & post & Hitems & Hcount & Hpre & Hall);
        [lia|lia|].
      exists (RangePair a b :: pre), a', b', post.
      cbn [app flatten_items count_pairs].
      rewrite Hstep.
      destruct (Nat.ltb_spec (List.length (address_mappings p))
                  ADDRESS_MAPPINGS_CAPACITY) as [_|Hfull]; [|lia].
      split; [rewrite Hitems; reflexivity|].
      split; [lia|].
      split; assumption.
    + exists [], a, b, items; cbn [app flatten_items count_pairs].
      split; [reflexivity|].
      split; [lia|].
      split; reflexivity.
  - cbn [forallb] in Hok; apply andb_true_iff in Hok.
    destruct Hok as (Hsingle & Hrest).
    cbn [flatten_items count_pairs] in *.
    specialize (IH (apply_single abi d p) Hrest).
    rewrite apply_single_mappings in IH.
    destruct (IH Hb Hover)
      as (pre & a' & b' & post & Hitems & Hcount & Hpre & Hall).
    exists (Single d :: pre), a', b', post.
    cbn [app flatten_items count_pairs].
    rewrite !parse_single by exact Hsingle.
    split; [rewrite Hitems; reflexivity|].
    split; [exact Hcount|].
    split; assumption.
Qed.

Lemma count_pairs_app l1 l2 :
  count_pairs (l1 ++ l2) = (count_pairs l1 + count_pairs l2)%nat.
Proof.
  induction l1 as [|[a b|d] l1 IH]; cbn [app count_pairs];
    [reflexivity|rewrite IH; reflexivity|exact IH].
Qed.


End MappingFacts.


(** ** Launch priority *)

Lemma map_segment_error perms s vm e :
  map_segment perms s vm = Err e -> e = InvalidAddress.
Proof.
  unfold map_segment.
  destruct (seg_size s <=? 0); [discriminate|].
  destruct (range_free _ _ vm); [discriminate|].
  intros H; injection H as <-; reflexivity.
Qed.




(** * Further properties of the header *)

(** ** The identifier counter *)

Lemma wrap32_apart a b : 0 < b - a < U32_MOD -> wrap32 a <> wrap32 b.
Proof.
  unfold wrap32; intros Hd Heq.
  assert (H0 : (b - a) mod U32_MOD = 0).
  { rewrite Zminus_mod, Heq, Z.sub_diag; reflexivity. }
  rewrite Z.mod_small in H0 by lia; lia.
Qed.

(** X1: two processes created fewer than 2^32 creations apart never share
    an identifier, wherever the counter stands and also across its wrap. *)
Theorem process_ids_distinct_within_window (css : list CodeSet) (k : Kernel)
    (i j : nat) :
  kernel_wf k ->
  (i < j < List.length css)%nat ->
  Z.of_nat j - Z.of_nat i < 2 ^ 32 ->
  nth_error (created_ids css k) i <> nth_error (created_ids css k) j.
Proof.
  intros Hk Hij Hwin.
  rewrite !created_ids_nth by (try exact Hk; lia).
  intros Heq; injection Heq as Heq; revert Heq.
  apply wrap32_apart; unfold U32_MOD; lia.
Qed.

Lemma process_ids_distinct_within_window_witness :
  nth_error
    (created_ids [sample_codeset; sample_codeset; sample_codeset]
       (mkKernel 4294967295)) 0
  <> nth_error
       (created_ids [sample_codeset; sample_codeset; sample_codeset]
          (mkKernel 4294967295)) 2.
Proof.
  apply (process_ids_distinct_within_window
           [sample_codeset; sample_codeset; sample_codeset]
           (mkKernel 4294967295) 0 2).
  - unfold kernel_wf, is_u32, U32_MOD; simpl; lia.
  - simpl; lia.
  - lia.
Defined.

Lemma create_all_counter css : forall k,
  next_process_id (snd (create_all css k))
  = wrap32 (wrap32 (next_process_id k) + Z.of_nat (List.length css))
    \/ css = [].
Proof.
  induction css as [|cs css IH]; intros k; [right; reflexivity|left].
  cbn [create_all].
  destruct (Create cs k) as [p k1] eqn:Hc.
  assert (Hk1 : next_process_id k1 = wrap32 (next_process_id k + 1))
    by (rewrite <- (Create_next cs k), Hc; reflexivity).
  destruct (create_all css k1) as [ps k2] eqn:Hall; cbn [snd].
  destruct (IH k1) as [Hn| ->].
  - rewrite Hall in Hn; cbn [snd] in Hn.
    rewrite Hn, Hk1; unfold wrap32.
    rewrite Z.mod_mod by (unfold U32_MOD; lia).
    rewrite !Zplus_mod_idemp_l; f_equal; cbn [List.length]; lia.
  - simpl in Hall; injection Hall as <- <-.
    rewrite Hk1; unfold wrap32; rewrite Zplus_mod_idemp_l; reflexivity.
Qed.

(** X2: after any number of creations the counter stands at its starting
    value plus that number, modulo 2^32; a run of exactly 2^32 creations
    brings it back to where it started. *)
Theorem counter_after_creations (css : list CodeSet) (k : Kernel) :
  kernel_wf k ->
  next_process_id (snd (create_all css k))
  = (next_process_id k + Z.of_nat (List.length css)) mod 2 ^ 32
  /\ (Z.of_nat (List.length css) = 2 ^ 32 ->
      next_process_id (snd (create_all css k)) = next_process_id k).
Proof.
  intros Hk.
  assert (H : next_process_id (snd (create_all css k))
              = (next_process_id k + Z.of_nat (List.length css)) mod 2 ^ 32).
  { destruct (create_all_counter css k) as [Hn| ->].
    - rewrite Hn, (wrap32_small _ Hk); reflexivity.
    - simpl; rewrite Z.add_0_r; symmetry; apply Z.mod_small; exact Hk. }
  split; [exact H|].
  intros Hlen; rewrite H, Hlen.
  replace (next_process_id k + 2 ^ 32)
    with (next_process_id k + 1 * 2 ^ 32) by lia.
  rewrite Z_mod_plus_full; apply Z.mod_small; exact Hk.
Qed.

Lemma counter_after_creations_witness :
  next_process_id
    (snd (create_all [sample_codeset; sample_codeset; sample_codeset]
            (mkKernel 4294967295)))
  = (4294967295 + 3) mod 2 ^ 32.
Proof.
  apply (proj1 (counter_after_creations
                  [sample_codeset; sample_codeset; sample_codeset]
                  (mkKernel 4294967295)
                  ltac:(unfold kernel_wf, is_u32, U32_MOD; simpl; lia))).
Defined.

(** X3: processes created one after the other from the same code set
    answer with the same name, type name and handle tag, and differ in their
    identifier. *)
Theorem same_codeset_same_name_other_id (cs : CodeSet) (k : Kernel) :
  kernel_wf k ->
  let p1 := fst (Create cs k) in
  let p2 := fst (Create cs (snd (Create cs k))) in
  Process_GetName p1 = Some (CodeSet_GetName cs)
  /\ Process_GetName p2 = Process_GetName p1
  /\ Process_GetTypeName p2 = Process_GetTypeName p1
  /\ Process_GetHandleType p2 = Process_GetHandleType p1
  /\ process_id p2 <> process_id p1.
Proof.
  intros Hk p1 p2; repeat split.
  unfold p1, p2; rewrite !Create_process_id, Create_next.
  rewrite <- (wrap32_small _ Hk) at 2.
  intros Heq; symmetry in Heq; revert Heq.
  apply wrap32_apart; unfold U32_MOD; lia.
Qed.

Lemma same_codeset_same_name_other_id_witness :
  Process_GetName (fst (Create sample_codeset (mkKernel 4294967295)))
  = Some (CodeSet_GetName sample_codeset)
  /\ process_id
       (fst (Create sample_codeset
               (snd (Create sample_codeset (mkKernel 4294967295)))))
     <> process_id (fst (Create sample_codeset (mkKernel 4294967295))).
Proof.
  pose proof (same_codeset_same_name_other_id sample_codeset
                (mkKernel 4294967295)
                ltac:(unfold kernel_wf, is_u32, U32_MOD; simpl; lia)) as H.
  cbv zeta in H; split; [apply H|apply H].
Defined.

(** ** The flags word *)

Lemma Z_range_forallb (f : Z -> bool) (n : nat) :
  forallb f (map Z.of_nat (seq 0 n)) = true ->
  forall z, 0 <= z < Z.of_nat n -> f z = true.
Proof.
  intros Hall z Hz; rewrite forallb_forall in Hall; apply Hall.
  apply in_map_iff; exists (Z.to_nat z); split; [lia|].
  apply in_seq; lia.
Qed.

Lemma memory_region_field_low_bits raw :
  memory_region_field (raw mod 2 ^ 13) = memory_region_field raw.
Proof.
  unfold memory_region_field, BitField.
  apply Z.bits_inj'; intros n Hn.
  rewrite !Z.land_spec, !Z.shiftr_spec by exact Hn.
  rewrite Z.testbit_ones_nonneg by lia.
  destruct (Z.ltb_spec n 4); [|rewrite !andb_false_r; reflexivity].
  rewrite Z.mod_pow2_bits_low by lia; reflexivity.
Qed.

Lemma bool_views_low_bits raw :
  ProcessFlags_bool_views (raw mod 2 ^ 13) = ProcessFlags_bool_views raw.
Proof.
  unfold ProcessFlags_bool_views, allow_debug, force_debug, allow_nonalphanum,
    shared_page_writable, privileged_priority, allow_main_args,
    shared_device_mem, runnable_on_sleep, loaded_high.
  rewrite !Z.mod_pow2_bits_low by lia; reflexivity.
Qed.

(** X4: no field of [union ProcessFlags] reads bits 13 to 15 (or anything
    above): a flags word and its low 13 bits show the same ten views. *)
Theorem flags_views_read_low_13_bits (raw : Z) :
  ProcessFlags_bool_views (raw mod 2 ^ 13) = ProcessFlags_bool_views raw
  /\ memory_region_field (raw mod 2 ^ 13) = memory_region_field raw
  /\ ProcessFlags_memory_region (raw mod 2 ^ 13) = ProcessFlags_memory_region raw.
Proof.
  split; [apply bool_views_low_bits|].
  unfold ProcessFlags_memory_region.
  rewrite memory_region_field_low_bits; split; reflexivity.
Qed.

Lemma repack_small :
  forall x, 0 <= x < 8192 -> (ProcessFlags_repack x =? x) = true.
Proof.
  apply (Z_range_forallb (fun x => ProcessFlags_repack x =? x)
           (Z.to_nat 8192)).
  vm_compute; reflexivity.
Qed.

(** X5: the ten fields of [union ProcessFlags] tile bits 0 to 12 of the raw
    word without overlap: putting the values of the ten views back at their
    declared positions gives the low 13 bits of the word, so a word below
    2^13 is recovered exactly. *)
Theorem flags_views_tile_low_13_bits (raw : Z) :
  ProcessFlags_repack raw = raw mod 2 ^ 13
  /\ (0 <= raw < 2 ^ 13 -> ProcessFlags_repack raw = raw).
Proof.
  assert (H : ProcessFlags_repack raw = raw mod 2 ^ 13).
  { assert (Hsame : ProcessFlags_repack raw = ProcessFlags_repack (raw mod 2 ^ 13)).
    { unfold ProcessFlags_repack.
      rewrite memory_region_field_low_bits.
      unfold allow_debug, force_debug, allow_nonalphanum,
        shared_page_writable, privileged_priority, allow_main_args,
        shared_device_mem, runnable_on_sleep, loaded_high.
      rewrite !Z.mod_pow2_bits_low by lia; reflexivity. }
    rewrite Hsame; apply Z.eqb_eq, repack_small.
    change 8192 with (2 ^ 13); apply Z.mod_pos_bound; lia. }
  split; [exact H|].
  intros Hsmall; rewrite H; apply Z.mod_small; exact Hsmall.
Qed.

Lemma flags_views_tile_low_13_bits_witness :
  ProcessFlags_repack 4880 = 4880.
Proof.
  apply (proj2 (flags_views_tile_low_13_bits 4880)); lia.
Defined.

Lemma MemoryRegion_of_value_inv v r :
  MemoryRegion_of_value v = Some r -> MemoryRegion_value r = v.
Proof.
  unfold MemoryRegion_of_value.
  destruct (Z.eqb_spec v 1) as [->|_];
    [intros H; injection H as <-; reflexivity|].
  destruct (Z.eqb_spec v 2) as [->|_];
    [intros H; injection H as <-; reflexivity|].
  destruct (Z.eqb_spec v 3) as [->|_];
    [intros H; injection H as <-; reflexivity|].
  discriminate.
Qed.

Lemma memory_region_field_range raw : 0 <= memory_region_field raw < 16.
Proof.
  unfold memory_region_field, BitField.
  rewrite Z.land_ones by lia.
  change 16 with (2 ^ 4); apply Z.mod_pos_bound; lia.
Qed.

Lemma memory_region_field_stored low v :
  0 <= low < 256 -> 0 <= v < 16 ->
  memory_region_field (low + 256 * v) = v.
Proof.
  intros Hlow Hv; unfold memory_region_field, BitField.
  rewrite Z.land_ones, Z.shiftr_div_pow2 by lia.
  change (2 ^ 8) with 256; change (2 ^ 4) with 16.
  replace (low + 256 * v) with (v * 256 + low) by lia.
  rewrite Z.div_add_l by lia.
  rewrite (Z.div_small low 256) by lia.
  rewrite Z.add_0_r; apply Z.mod_small; exact Hv.
Qed.

(** X6: the [memory_region] field is a number from 0 to 15 and names an
    enumerator exactly when it is 1, 2 or 3: each enumerator stored at bit 8,
    beside any setting of the eight flags below it, is read back as itself,
    while a word whose bits 8 to 11 are clear (a zeroed word among them)
    names no region. *)
Theorem memory_region_field_decoding :
  (forall raw, 0 <= memory_region_field raw < 16)
  /\ (forall raw r,
        ProcessFlags_memory_region raw = Some r <->
        memory_region_field raw = MemoryRegion_value r)
  /\ (forall low r,
        0 <= low < 256 ->
        ProcessFlags_memory_region (low + 256 * MemoryRegion_value r) = Some r)
  /\ (forall low, 0 <= low < 256 -> ProcessFlags_memory_region low = None).
Proof.
  split; [exact memory_region_field_range|].
  split; [|split].
  - intros raw r; unfold ProcessFlags_memory_region; split.
    + intros H; symmetry; exact (MemoryRegion_of_value_inv _ _ H).
    + intros ->; destruct r; reflexivity.
  - intros low r Hlow; unfold ProcessFlags_memory_region.
    rewrite memory_region_field_stored by (destruct r; simpl; lia).
    destruct r; reflexivity.
  - intros low Hlow; unfold ProcessFlags_memory_region.
    replace low with (low + 256 * 0) by lia.
    rewrite memory_region_field_stored by lia; reflexivity.
Qed.

Lemma memory_region_field_decoding_witness :
  ProcessFlags_memory_region (16 + 256 * MemoryRegion_value SYSTEM) = Some SYSTEM
  /\ ProcessFlags_memory_region 16 = None.
Proof.
  split.
  - apply (proj1 (proj2 (proj2 memory_region_field_decoding)) 16 SYSTEM); lia.
  - apply (proj2 (proj2 (proj2 memory_region_field_decoding)) 16); lia.
Defined.

Lemma write_bit_testbit raw k b j :
  0 <= k ->
  Z.testbit (write_bit raw k b) j = if k =? j then b else Z.testbit raw j.
Proof.
  intros Hk; unfold write_bit; destruct b.
  - rewrite Z.setbit_eqb by exact Hk; destruct (k =? j); reflexivity.
  - rewrite Z.clearbit_eqb; destruct (k =? j); simpl;
      [apply andb_false_r|apply andb_true_r].
Qed.

Lemma write_bit_memory_region_field raw k b :
  0 <= k -> (k < 8 \/ 12 <= k) ->
  memory_region_field (write_bit raw k b) = memory_region_field raw.
Proof.
  intros Hk Hout; unfold memory_region_field, BitField.
  apply Z.bits_inj'; intros n Hn.
  rewrite !Z.land_spec, !Z.shiftr_spec by exact Hn.
  rewrite Z.testbit_ones_nonneg by lia.
  destruct (Z.ltb_spec n 4); [|rewrite !andb_false_r; reflexivity].
  rewrite write_bit_testbit by exact Hk.
  destruct (Z.eqb_spec k (n + 8)); [lia|reflexivity].
Qed.

(** X7: writing the bit of one of the nine one-bit flags changes that flag
    to the value written and leaves the other eight flags and the
    [memory_region] field as they were. *)
Theorem flag_write_is_local (raw : Z) (n : nat) (b : bool) :
  (n < 9)%nat ->
  let raw' := write_bit raw (nth n BOOL_FLAG_BITS 0) b in
  nth n (ProcessFlags_bool_views raw') false = b
  /\ (forall m, m <> n ->
        nth m (ProcessFlags_bool_views raw') false
        = nth m (ProcessFlags_bool_views raw) false)
  /\ memory_region_field raw' = memory_region_field raw.
Proof.
  intros Hn raw'.
  assert (Hview : forall f m,
            (m < 9)%nat ->
            nth m (ProcessFlags_bool_views f) false
            = Z.testbit f (nth m BOOL_FLAG_BITS 0)).
  { intros f m Hm.
    do 9 (destruct m as [|m]; [reflexivity|]); lia. }
  assert (Hpos : 0 <= nth n BOOL_FLAG_BITS 0
                 /\ (nth n BOOL_FLAG_BITS 0 < 8 \/ 12 <= nth n BOOL_FLAG_BITS 0)).
  { do 9 (destruct n as [|n]; [simpl; lia|]); lia. }
  assert (Hinj : forall m, (m < 9)%nat -> m <> n ->
            nth n BOOL_FLAG_BITS 0 <> nth m BOOL_FLAG_BITS 0).
  { intros m Hm Hne.
    do 9 (destruct n as [|n];
          [do 9 (destruct m as [|m]; [simpl; try lia; congruence|]); lia|]);
      lia. }
  split; [|split].
  - rewrite Hview by exact Hn; unfold raw'.
    rewrite write_bit_testbit by apply Hpos.
    rewrite Z.eqb_refl; reflexivity.
  - intros m Hne.
    destruct (Nat.lt_ge_cases m 9) as [Hm|Hm].
    + rewrite !Hview by exact Hm; unfold raw'.
      rewrite write_bit_testbit by apply Hpos.
      destruct (Z.eqb_spec (nth n BOOL_FLAG_BITS 0) (nth m BOOL_FLAG_BITS 0))
        as [Heq|]; [|reflexivity].
      exfalso; exact (Hinj m Hm Hne Heq).
    + rewrite !nth_overflow by (simpl; lia); reflexivity.
  - unfold raw'; apply write_bit_memory_region_field; apply Hpos.
Qed.

Lemma flag_write_is_local_witness :
  nth 4 (ProcessFlags_bool_views (write_bit 768 (nth 4 BOOL_FLAG_BITS 0) true))
    false = true
  /\ memory_region_field (write_bit 768 (nth 4 BOOL_FLAG_BITS 0) true)
     = memory_region_field 768.
Proof.
  pose proof (flag_write_is_local 768 4 true ltac:(lia)) as H.
  cbv zeta in H; split; apply H.
Defined.
